(** * Multi-armed-bandit simulator (dynamic_pricing_gui.py)

    A shallow embedding of the reward environment [AdBandit], of the three
    decision algorithms [epsilon_greedy], [ucb1] and [thompson_sampling], and
    of the reward/regret accounting of [BanditApp.run_simulation].

    Conventions of the embedding.
    - numpy float arrays are lists of exact rationals ([Q], compared with
      [==]); integer arrays and Python integers are [Z].  Statements on
      counts, indices, comparisons and sums of 0/1 rewards are the same in
      the program's binary64 arithmetic; equalities on value estimates and on
      regret sums hold in exact arithmetic only, and the section on float64
      arithmetic shows runs where rounding breaks them.
    - Python exceptions are the [Raise] branch of [result].
    - The process-wide generator [np.random] is a state of type [G] threaded
      through every call; the monad [M G] carries that state and the
      exceptions.
    - [np.sqrt] and [np.log] are parameters of [ucb1]: no rational function
      computes them and no property below depends on their values. *)

From Stdlib Require Import String ZArith QArith Qfield Lqa List Lia Bool.
From Stdlib Require PrimFloat Uint63.
Import ListNotations.

Set Implicit Arguments.

(* ------------------------------------------------------------------ *)
(** ** Exceptions and the error type *)

Inductive exn : Type :=
| ValueError_negative_dimensions   (* np.zeros / np.ones of a negative size *)
| ValueError_argmax_empty          (* np.argmax of an empty array *)
| ValueError_max_empty             (* np.max of an empty array *)
| ValueError_randint_bounds        (* np.random.randint(K) with K <= 0 *)
| ValueError_beta_parameter        (* np.random.beta with a <= 0 or b <= 0 *)
| IndexError_out_of_bounds.        (* array index outside [-len, len) *)

Inductive result (A : Type) : Type :=
| Ok (a : A)
| Raise (e : exn).

Arguments Ok {A} a.
Arguments Raise {A} e.

Definition rbind {A B} (c : result A) (k : A -> result B) : result B :=
  match c with
  | Ok a => k a
  | Raise e => Raise e
  end.

(** State (the generator) and exceptions. *)
Definition M (G A : Type) : Type := G -> result (A * G).

Definition ret {G A} (a : A) : M G A := fun g => Ok (a, g).

Definition bind {G A B} (c : M G A) (k : A -> M G B) : M G B :=
  fun g => match c g with
           | Ok (a, g') => k a g'
           | Raise e => Raise e
           end.

Definition lift {G A} (c : result A) : M G A :=
  fun g => match c with
           | Ok a => Ok (a, g)
           | Raise e => Raise e
           end.

Declare Scope py_scope.
Delimit Scope py_scope with py.

Notation "x <- c ;; k" := (bind c (fun x => k))
  (at level 61, c at next level, right associativity) : py_scope.
Notation "' pat <- c ;; k" := (bind c (fun x => match x with pat => k end))
  (at level 61, pat pattern, c at next level, right associativity) : py_scope.
Notation "x <~ c ;; k" := (rbind c (fun x => k))
  (at level 61, c at next level, right associativity) : py_scope.

(** [for t in range(start, start + n): s = body(t, s)] *)
Fixpoint for_range {G St} (body : nat -> St -> M G St) (start n : nat)
  (s : St) : M G St :=
  match n with
  | O => ret s
  | S n' => bind (body start s) (for_range body (S start) n')
  end.

(* ------------------------------------------------------------------ *)
(** ** The numpy operations the program uses *)

Definition Qltb (x y : Q) : bool := negb (Qle_bool y x).

(** [np.zeros(n)], [np.ones(n)], [np.zeros(n, dtype=int)]: a negative size is
    rejected. *)
Definition np_full {A} (x : A) (n : Z) : result (list A) :=
  if (n <? 0)%Z then Raise ValueError_negative_dimensions
  else Ok (repeat x (Z.to_nat n)).

Definition np_zeros (n : Z) : result (list Q) := np_full 0%Q n.
Definition np_ones (n : Z) : result (list Q) := np_full 1%Q n.
Definition np_zeros_int (n : Z) : result (list Z) := np_full 0%Z n.

(** Index normalisation of [a[i]]: an index in [-len, 0) counts from the end,
    an index outside [-len, len) raises IndexError. *)
Definition norm_index (len : nat) (i : Z) : result nat :=
  let n := Z.of_nat len in
  if ((i <? - n) || (n <=? i))%Z then Raise IndexError_out_of_bounds
  else Ok (Z.to_nat (if (i <? 0)%Z then i + n else i)).

Definition np_getitem {A} (a : list A) (i : Z) : result A :=
  rbind (norm_index (length a) i) (fun j =>
  match nth_error a j with
  | Some x => Ok x
  | None => Raise IndexError_out_of_bounds
  end).

Fixpoint list_set {A} (a : list A) (j : nat) (x : A) : list A :=
  match a, j with
  | [], _ => []
  | _ :: a', O => x :: a'
  | y :: a', S j' => y :: list_set a' j' x
  end.

Definition np_setitem {A} (a : list A) (i : Z) (x : A) : result (list A) :=
  rbind (norm_index (length a) i) (fun j => Ok (list_set a j x)).

(** [np.argmax]: index of the first maximum; an empty array raises. *)
Fixpoint argmax_from (best_i : Z) (best : Q) (i : Z) (a : list Q) : Z :=
  match a with
  | [] => best_i
  | x :: a' =>
      if Qltb best x then argmax_from i x (i + 1)%Z a'
      else argmax_from best_i best (i + 1)%Z a'
  end.

Definition np_argmax (a : list Q) : result Z :=
  match a with
  | [] => Raise ValueError_argmax_empty
  | x :: a' => Ok (argmax_from 0%Z x 1%Z a')
  end.

(** [np.max]: the largest element; an empty array raises. *)
Definition np_max (a : list Q) : result Q :=
  match a with
  | [] => Raise ValueError_max_empty
  | x :: a' => Ok (fold_left (fun m y => if Qltb m y then y else m) a' x)
  end.

(** [np.cumsum]: running sums, the first entry being the first element. *)
Fixpoint cumsum_from (acc : Q) (a : list Q) : list Q :=
  match a with
  | [] => []
  | x :: a' => (acc + x)%Q :: cumsum_from (acc + x)%Q a'
  end.

Definition np_cumsum (a : list Q) : list Q :=
  match a with
  | [] => []
  | x :: a' => x :: cumsum_from x a'
  end.

(** [a + b] on two arrays of one shape (the program never adds arrays of
    different shapes). *)
Definition np_add (a b : list Q) : list Q :=
  map (fun xy => (fst xy + snd xy)%Q) (combine a b).

(* ------------------------------------------------------------------ *)
(** ** The random source *)

(** The three draws the program makes from [np.random].  [random_randint K]
    is only called with [0 < K] and [random_beta] only with positive
    parameters: the wrappers below raise otherwise, as numpy does. *)
Class RandomSource (G : Type) : Type := {
  random_rand : G -> Q * G;
  random_randint : Z -> G -> Z * G;
  random_beta : list Q -> list Q -> G -> list Q * G
}.

(** What numpy documents of these draws: [rand] lies in [0, 1), [randint(K)]
    in [0, K), and [beta] returns one sample per parameter pair. *)
Class RandomSourceLaws (G : Type) `{RandomSource G} : Prop := {
  rand_unit : forall g, (0 <= fst (random_rand g) /\ fst (random_rand g) < 1)%Q;
  randint_range : forall K g,
    (0 < K)%Z -> (0 <= fst (random_randint K g) < K)%Z;
  beta_shape : forall a b g,
    length a = length b -> length (fst (random_beta a b g)) = length a
}.

Arguments RandomSourceLaws G {_}.

Section Bandit.

Context {G : Type} `{RandomSource G}.

Open Scope py_scope.

Definition np_random_rand : M G Q :=
  fun g => Ok (random_rand g).

Definition np_random_randint (K : Z) : M G Z :=
  fun g => if (K <=? 0)%Z then Raise ValueError_randint_bounds
           else Ok (random_randint K g).

Definition np_random_beta (a b : list Q) : M G (list Q) :=
  fun g => if forallb (Qltb 0) a && forallb (Qltb 0) b
           then Ok (random_beta a b g)
           else Raise ValueError_beta_parameter.

(* ------------------------------------------------------------------ *)
(** ** class AdBandit *)

Record AdBandit : Type := {
  ads : list string;
  ctrs : list Q;
  K : Z
}.

(** [AdBandit.__init__]: nothing is validated. *)
Definition AdBandit_init (ads0 : list string) (ctrs0 : list Q) : AdBandit :=
  {| ads := ads0; ctrs := ctrs0; K := Z.of_nat (length ads0) |}.

(** [AdBandit.pull]: the uniform draw is made first, then [ctrs[arm]] is
    read. *)
Definition pull (env : AdBandit) (arm : Z) : M G Z :=
  u <- np_random_rand ;;
  p <- lift (np_getitem (ctrs env) arm) ;;
  ret (if Qltb u p then 1%Z else 0%Z).

Definition expected_rewards (env : AdBandit) : list Q := ctrs env.

(* ------------------------------------------------------------------ *)
(** ** The algorithms *)

(** [counts[arm] += 1; values[arm] += (r - values[arm]) / counts[arm]].
    An augmented assignment reads its target, evaluates the right-hand side
    (which reads [values[arm]] again, then the updated [counts[arm]]) and
    stores the sum. *)
Definition incremental_update (counts values : list Q) (arm r : Z)
  : result (list Q * list Q) :=
  c <~ np_getitem counts arm ;;
  counts' <~ np_setitem counts arm (c + 1)%Q ;;
  v <~ np_getitem values arm ;;
  v2 <~ np_getitem values arm ;;
  c' <~ np_getitem counts' arm ;;
  values' <~ np_setitem values arm (v + (inject_Z r - v2) / c')%Q ;;
  Ok (counts', values').

(** The local variables of [epsilon_greedy] and of [ucb1]. *)
Record mean_state : Type := {
  counts : list Q;
  values : list Q;
  rewards : list Q;
  chosen : list Z
}.

Definition eg_init (env : AdBandit) (T : Z) : result mean_state :=
  counts0 <~ np_zeros (K env) ;;
  values0 <~ np_zeros (K env) ;;
  rewards0 <~ np_zeros T ;;
  chosen0 <~ np_zeros_int T ;;
  Ok {| counts := counts0; values := values0;
        rewards := rewards0; chosen := chosen0 |}.

(** One iteration of the loop of [epsilon_greedy]. *)
Definition eg_step (env : AdBandit) (eps : Q) (t : nat) (st : mean_state)
  : M G mean_state :=
  u <- np_random_rand ;;
  arm <- (if Qltb u eps then np_random_randint (K env)
          else lift (np_argmax (values st))) ;;
  r <- pull env arm ;;
  cv <- lift (incremental_update (counts st) (values st) arm r) ;;
  rewards' <- lift (np_setitem (rewards st) (Z.of_nat t) (inject_Z r)) ;;
  chosen' <- lift (np_setitem (chosen st) (Z.of_nat t) arm) ;;
  ret {| counts := fst cv; values := snd cv;
         rewards := rewards'; chosen := chosen' |}.

(** The state of [epsilon_greedy env T eps] after the first [n] iterations. *)
Definition eg_steps (env : AdBandit) (T : Z) (eps : Q) (n : nat)
  : M G mean_state :=
  st <- lift (eg_init env T) ;;
  for_range (eg_step env eps) 0 n st.

Definition epsilon_greedy (env : AdBandit) (T : Z) (eps : Q)
  : M G (list Q * list Z) :=
  st <- eg_steps env T eps (Z.to_nat T) ;;
  ret (rewards st, chosen st).

Section UCB1.

Variables np_sqrt np_log : Q -> Q.

Definition ucb_init (env : AdBandit) (T : Z) : result mean_state :=
  counts0 <~ np_ones (K env) ;;
  values0 <~ np_zeros (K env) ;;
  rewards0 <~ np_zeros T ;;
  chosen0 <~ np_zeros_int T ;;
  Ok {| counts := counts0; values := values0;
        rewards := rewards0; chosen := chosen0 |}.

(** [values + np.sqrt((2 * np.log(t + 1)) / counts)] *)
Definition ucb_bounds (t : nat) (st : mean_state) : list Q :=
  np_add (values st)
    (map np_sqrt
       (map (fun c => (2 * np_log (inject_Z (Z.of_nat t + 1)) / c)%Q)
            (counts st))).

Definition ucb_step (env : AdBandit) (t : nat) (st : mean_state)
  : M G mean_state :=
  arm <- lift (np_argmax (ucb_bounds t st)) ;;
  r <- pull env arm ;;
  cv <- lift (incremental_update (counts st) (values st) arm r) ;;
  rewards' <- lift (np_setitem (rewards st) (Z.of_nat t) (inject_Z r)) ;;
  chosen' <- lift (np_setitem (chosen st) (Z.of_nat t) arm) ;;
  ret {| counts := fst cv; values := snd cv;
         rewards := rewards'; chosen := chosen' |}.

Definition ucb_steps (env : AdBandit) (T : Z) (n : nat) : M G mean_state :=
  st <- lift (ucb_init env T) ;;
  for_range (ucb_step env) 0 n st.

Definition ucb1 (env : AdBandit) (T : Z) : M G (list Q * list Z) :=
  st <- ucb_steps env T (Z.to_nat T) ;;
  ret (rewards st, chosen st).

End UCB1.

(** The local variables of [thompson_sampling]. *)
Record beta_state : Type := {
  alpha : list Q;
  beta : list Q;
  ts_rewards : list Q;
  ts_chosen : list Z
}.

Definition ts_init (env : AdBandit) (T : Z) : result beta_state :=
  alpha0 <~ np_ones (K env) ;;
  beta0 <~ np_ones (K env) ;;
  rewards0 <~ np_zeros T ;;
  chosen0 <~ np_zeros_int T ;;
  Ok {| alpha := alpha0; beta := beta0;
        ts_rewards := rewards0; ts_chosen := chosen0 |}.

Definition ts_step (env : AdBandit) (t : nat) (st : beta_state)
  : M G beta_state :=
  theta <- np_random_beta (alpha st) (beta st) ;;
  arm <- lift (np_argmax theta) ;;
  r <- pull env arm ;;
  rewards' <- lift (np_setitem (ts_rewards st) (Z.of_nat t) (inject_Z r)) ;;
  chosen' <- lift (np_setitem (ts_chosen st) (Z.of_nat t) arm) ;;
  a <- lift (np_getitem (alpha st) arm) ;;
  alpha' <- lift (np_setitem (alpha st) arm (a + inject_Z r)%Q) ;;
  b <- lift (np_getitem (beta st) arm) ;;
  beta' <- lift (np_setitem (beta st) arm (b + inject_Z (1 - r))%Q) ;;
  ret {| alpha := alpha'; beta := beta';
         ts_rewards := rewards'; ts_chosen := chosen' |}.

Definition ts_steps (env : AdBandit) (T : Z) (n : nat) : M G beta_state :=
  st <- lift (ts_init env T) ;;
  for_range (ts_step env) 0 n st.

Definition thompson_sampling (env : AdBandit) (T : Z) : M G (list Q * list Z) :=
  st <- ts_steps env T (Z.to_nat T) ;;
  ret (ts_rewards st, ts_chosen st).

End Bandit.

(* ------------------------------------------------------------------ *)
(** ** BanditApp.run_simulation *)

Section Simulation.

Context {G : Type} `{RandomSource G}.
Variables np_sqrt np_log : Q -> Q.

Open Scope py_scope.

(** The dictionary [self.results]. *)
Record Results : Type := {
  res_eg : list Q;
  res_ucb : list Q;
  res_ts : list Q;
  reg_eg : list Q;
  reg_ucb : list Q;
  reg_ts : list Q;
  res_ads : list string;
  res_expected : list Q
}.

(** [optimal - r] with [optimal] a scalar and [r] an array. *)
Definition np_rsub (optimal : Q) (r : list Q) : list Q :=
  map (fun x => (optimal - x)%Q) r.

(** The body of [run_simulation] from the two columns of the dataset and the
    horizon; the window handling around it is not modelled. *)
Definition run_simulation_T (ads0 : list string) (ctrs0 : list Q) (T : Z)
  : M G Results :=
  let env := AdBandit_init ads0 ctrs0 in
  eg <- epsilon_greedy env T (1 # 10) ;;
  ucb <- ucb1 np_sqrt np_log env T ;;
  ts <- thompson_sampling env T ;;
  optimal <- lift (np_max (expected_rewards env)) ;;
  let regret_eg := np_cumsum (np_rsub optimal (fst eg)) in
  let regret_ucb := np_cumsum (np_rsub optimal (fst ucb)) in
  let regret_ts := np_cumsum (np_rsub optimal (fst ts)) in
  ret {| res_eg := np_cumsum (fst eg);
         res_ucb := np_cumsum (fst ucb);
         res_ts := np_cumsum (fst ts);
         reg_eg := regret_eg;
         reg_ucb := regret_ucb;
         reg_ts := regret_ts;
         res_ads := ads0;
         res_expected := ctrs0 |}.

(** [T = 5000] in the source. *)
Definition run_simulation (ads0 : list string) (ctrs0 : list Q) : M G Results :=
  run_simulation_T ads0 ctrs0 5000.

End Simulation.

(* ------------------------------------------------------------------ *)
(** ** BanditApp.show_results: the best ad *)

(** The values [show_results] computes for the "BEST AD" label: the index
    [np.argmax(results["expected"])], the label [results['ads'][best_idx]]
    and [round(results['expected'][best_idx], 3)].  The rounding to three
    decimals is the parameter [round3]; the drawing of the two plots and of
    the label is not modelled. *)
Definition show_results_best (round3 : Q -> Q) (res : Results)
  : result (Z * string * Q) :=
  (best_idx <~ np_argmax (res_expected res) ;;
   label <~ np_getitem (res_ads res) best_idx ;;
   ctr <~ np_getitem (res_expected res) best_idx ;;
   Ok (best_idx, label, round3 ctr))%py.

(* ------------------------------------------------------------------ *)
(** ** Statistics of a trace *)

(** The first [t] steps of a run: (reward, chosen arm) in order. *)
Definition history (t : nat) (rs : list Q) (cs : list Z) : list (Q * Z) :=
  combine (firstn t rs) (firstn t cs).

(** Number of pulls of arm [a]. *)
Fixpoint pulls_of (a : Z) (h : list (Q * Z)) : nat :=
  match h with
  | [] => 0
  | (_, c) :: h' => (if (c =? a)%Z then 1 else 0) + pulls_of a h'
  end.

(** Sum of the rewards observed on arm [a]. *)
Fixpoint reward_sum (a : Z) (h : list (Q * Z)) : Q :=
  match h with
  | [] => 0
  | (r, c) :: h' => (if (c =? a)%Z then r else 0) + reward_sum a h'
  end.

(** Sum of all the rewards of a trace. *)
Definition total (rs : list Q) : Q := fold_right Qplus 0 rs.

(** A well-formed trace for [K] arms and horizon [T]. *)
Definition trace_ok (K T : Z) (tr : list Q * list Z) : Prop :=
  Z.of_nat (length (fst tr)) = T /\
  Z.of_nat (length (snd tr)) = T /\
  Forall (fun r => r = 0 \/ r = 1) (fst tr) /\
  Forall (fun c => (0 <= c < K)%Z) (snd tr).

(* ------------------------------------------------------------------ *)
(** ** A concrete random source

    A counter: the n-th uniform draw is (n mod 8)/8, the n-th integer draw is
    n mod K, and a Beta draw returns the mean a/(a+b) of each component. *)

Module CounterSource.

Definition beta_mean (ab : Q * Q) : Q := fst ab / (fst ab + snd ab).

#[export] Instance counter_source : RandomSource Z := {|
  random_rand := fun g => (Qmake (g mod 8) 8, (g + 1)%Z);
  random_randint := fun K g => ((g mod K)%Z, (g + 1)%Z);
  random_beta := fun a b g => (map beta_mean (combine a b), (g + 1)%Z)
|}.

(** Rational stand-ins for [np.sqrt] and [np.log]. *)
Definition approx_sqrt (x : Q) : Q := (x + 1) / 2.

Definition approx_log (x : Q) : Q := x - 1.

(** A two-arm dataset. *)
Definition demo_ads : list string := ["ad A"; "ad B"]%string.

Definition demo_ctrs : list Q := [1 # 2; 3 # 4].

Definition demo_env : AdBandit := AdBandit_init demo_ads demo_ctrs.

End CounterSource.

(* ------------------------------------------------------------------ *)
(** ** float64 arithmetic

    The arithmetic of the value update (lines 55-56) and of the regret
    accounting (lines 122-130) on IEEE binary64 numbers, as numpy performs
    it: every operation rounds to nearest, sums run from left to right. *)

Definition f64 : Set := PrimFloat.float.

(** An integer below 2^53 in absolute value, as a float. *)
Definition f64_of_Z (z : Z) : f64 :=
  if (z <? 0)%Z
  then PrimFloat.opp (PrimFloat.of_uint63 (Uint63.of_Z (- z)))
  else PrimFloat.of_uint63 (Uint63.of_Z z).

(** The float nearest to a rational with small numerator and denominator:
    the literal 0.1 is [f64_of_Q (1 # 10)]. *)
Definition f64_of_Q (q : Q) : f64 :=
  PrimFloat.div (f64_of_Z (Qnum q)) (f64_of_Z (Zpos (Qden q))).

(** [np.cumsum] on a float64 array. *)
Fixpoint cumsum_from_f64 (acc : f64) (a : list f64) : list f64 :=
  match a with
  | [] => []
  | x :: a' => PrimFloat.add acc x :: cumsum_from_f64 (PrimFloat.add acc x) a'
  end.

Definition np_cumsum_f64 (a : list f64) : list f64 :=
  match a with
  | [] => []
  | x :: a' => x :: cumsum_from_f64 x a'
  end.

(** [optimal - r] on a float64 array. *)
Definition np_rsub_f64 (optimal : f64) (r : list f64) : list f64 :=
  map (fun x => PrimFloat.sub optimal x) r.

(** [counts[arm] += 1; values[arm] += (r - values[arm]) / counts[arm]] on
    float64 arrays. *)
Definition incremental_update_f64 (counts values : list f64) (arm r : Z)
  : result (list f64 * list f64) :=
  (c <~ np_getitem counts arm ;;
   counts' <~ np_setitem counts arm (PrimFloat.add c (f64_of_Z 1)) ;;
   v <~ np_getitem values arm ;;
   v2 <~ np_getitem values arm ;;
   c' <~ np_getitem counts' arm ;;
   values' <~ np_setitem values arm
     (PrimFloat.add v (PrimFloat.div (PrimFloat.sub (f64_of_Z r) v2) c')) ;;
   Ok (counts', values'))%py.

(** The updates of a run, in order, along its trace of (reward, arm). *)
Fixpoint replay_updates_f64 (counts values : list f64)
  (trace : list (Z * Z)) : result (list f64 * list f64) :=
  match trace with
  | [] => Ok (counts, values)
  | (r, arm) :: trace' =>
      rbind (incremental_update_f64 counts values arm r)
            (fun cv => replay_updates_f64 (fst cv) (snd cv) trace')
  end.

(** The value estimates [ucb1] holds after a trace: counts start at 1 and
    values at 0. *)
Definition ucb1_values_f64 (K : Z) (trace : list (Z * Z))
  : result (list f64) :=
  (counts0 <~ np_full (f64_of_Z 1) K ;;
   values0 <~ np_full (f64_of_Z 0) K ;;
   cv <~ replay_updates_f64 counts0 values0 trace ;;
   Ok (snd cv))%py.

(* ------------------------------------------------------------------ *)
(** ** Vocabulary of the proofs: steps and loop invariants *)

(** The reward of a pull whose uniform draw is [u], on an arm of probability
    [p]. *)
Definition drawn_reward (u p : Q) : Z := if Qltb u p then 1%Z else 0%Z.

(** The state of [epsilon_greedy] or [ucb1] after arm [arm] returned reward
    [r] at step [t]. *)
Definition observed (st : mean_state) (t : nat) (arm r : Z) : mean_state :=
  let j := Z.to_nat arm in
  let c := nth j (counts st) 0 + 1 in
  let v := nth j (values st) 0 in
  {| counts := list_set (counts st) j c;
     values := list_set (values st) j (v + (inject_Z r - v) / c);
     rewards := list_set (rewards st) t (inject_Z r);
     chosen := list_set (chosen st) t arm |}.

(** The state of [thompson_sampling] after arm [arm] returned reward [r] at
    step [t]. *)
Definition ts_observed (st : beta_state) (t : nat) (arm r : Z) : beta_state :=
  let j := Z.to_nat arm in
  {| alpha := list_set (alpha st) j (nth j (alpha st) 0 + inject_Z r);
     beta := list_set (beta st) j (nth j (beta st) 0 + inject_Z (1 - r));
     ts_rewards := list_set (ts_rewards st) t (inject_Z r);
     ts_chosen := list_set (ts_chosen st) t arm |}.

(** A binary reward; an arm index of the environment. *)
Definition reward_ok (r : Q) : Prop := r = 0 \/ r = 1.

Definition arm_ok (env : AdBandit) (c : Z) : Prop := (0 <= c < K env)%Z.

(** The arrays keep their allocated sizes. *)
Definition shape_inv (nK nT : nat) (st : mean_state) : Prop :=
  length (counts st) = nK /\ length (values st) = nK /\
  length (rewards st) = nT /\ length (chosen st) = nT.

Definition ts_shape (nK nT : nat) (st : beta_state) : Prop :=
  length (alpha st) = nK /\ length (beta st) = nK /\
  length (ts_rewards st) = nT /\ length (ts_chosen st) = nT.

(** The counts start at [c0] (0 in [epsilon_greedy], 1 in [ucb1]).  After
    [t] steps, the count of every arm is [c0] plus its number of pulls
    and its value times its count is the sum of its rewards. *)
Definition mean_inv (c0 : Q) (t : nat) (st : mean_state) : Prop :=
  forall a, (a < length (counts st))%nat ->
    nth a (counts st) 0 ==
      c0 + inject_Z (Z.of_nat
             (pulls_of (Z.of_nat a) (history t (rewards st) (chosen st)))) /\
    nth a (values st) 0 * nth a (counts st) 0 ==
      reward_sum (Z.of_nat a) (history t (rewards st) (chosen st)).

(** What holds after [t] completed steps of either algorithm. *)
Definition run_inv (c0 : Q) (nK nT : nat) (t : nat) (st : mean_state) : Prop :=
  shape_inv nK nT st /\ (t <= nT)%nat /\ mean_inv c0 t st.

(** The arrays have their sizes and hold rewards and arm indices only. *)
Definition trace_inv (env : AdBandit) (nT : nat) (st : mean_state) : Prop :=
  shape_inv (Z.to_nat (K env)) nT st /\
  Forall reward_ok (rewards st) /\ Forall (arm_ok env) (chosen st).

(** After [t] steps: the pseudo-counts of every arm are the uniform prior
    plus its successes and its failures. *)
Definition ts_counts_inv (t : nat) (st : beta_state) : Prop :=
  forall a, (a < length (alpha st))%nat ->
    let h := history t (ts_rewards st) (ts_chosen st) in
    1 <= nth a (alpha st) 0 /\ 1 <= nth a (beta st) 0 /\
    nth a (alpha st) 0 - 1 == reward_sum (Z.of_nat a) h /\
    nth a (alpha st) 0 + nth a (beta st) 0 - 2 ==
      inject_Z (Z.of_nat (pulls_of (Z.of_nat a) h)).

Definition ts_inv (nK nT : nat) (t : nat) (st : beta_state) : Prop :=
  ts_shape nK nT st /\ (t <= nT)%nat /\ ts_counts_inv t st.

Definition ts_trace_inv (env : AdBandit) (nT : nat) (st : beta_state)
  : Prop :=
  ts_shape (Z.to_nat (K env)) nT st /\
  Forall (Qle 1) (alpha st) /\ Forall (Qle 1) (beta st) /\
  Forall reward_ok (ts_rewards st) /\ Forall (arm_ok env) (ts_chosen st).

Section StepVocabulary.

Context {G : Type} `{RandomSource G}.

Open Scope py_scope.

(** What [epsilon_greedy] and [ucb1] do once the arm is selected. *)
Definition observe (env : AdBandit) (t : nat) (st : mean_state) (arm : Z)
  : M G mean_state :=
  r <- pull env arm ;;
  cv <- lift (incremental_update (counts st) (values st) arm r) ;;
  rewards' <- lift (np_setitem (rewards st) (Z.of_nat t) (inject_Z r)) ;;
  chosen' <- lift (np_setitem (chosen st) (Z.of_nat t) arm) ;;
  ret {| counts := fst cv; values := snd cv;
         rewards := rewards'; chosen := chosen' |}.

(** One completed step: some arm [arm >= 0] was pulled for a reward [r]. *)
Definition mean_step (env : AdBandit) (t : nat) (st st' : mean_state) : Prop :=
  exists arm r,
    (0 <= arm < Z.of_nat (length (ctrs env)))%Z /\ (r = 0 \/ r = 1)%Z /\
    (Z.to_nat arm < length (counts st))%nat /\
    (Z.to_nat arm < length (values st))%nat /\
    (t < length (rewards st))%nat /\ (t < length (chosen st))%nat /\
    st' = observed st t arm r.

Definition ts_step_rel (env : AdBandit) (t : nat) (st st' : beta_state)
  : Prop :=
  exists arm r,
    (0 <= arm < Z.of_nat (length (ctrs env)))%Z /\ (r = 0 \/ r = 1)%Z /\
    (Z.to_nat arm < length (alpha st))%nat /\
    (Z.to_nat arm < length (beta st))%nat /\
    (t < length (ts_rewards st))%nat /\ (t < length (ts_chosen st))%nat /\
    st' = ts_observed st t arm r.

End StepVocabulary.

(* ================================================================== *)
(** * Properties *)

(** ** The monad *)

Lemma bind_Ok {G A B} (c : M G A) (k : A -> M G B) g b g' :
  bind c k g = Ok (b, g') ->
  exists a g1, c g = Ok (a, g1) /\ k a g1 = Ok (b, g').
Proof.
  unfold bind. destruct (c g) as [[a g1]|e]; [|discriminate].
  intros Hk. now exists a, g1.
Qed.

Lemma lift_Ok {G A} (c : result A) (g : G) a g' :
  lift c g = Ok (a, g') -> c = Ok a /\ g' = g.
Proof.
  unfold lift. destruct c; [|discriminate].
  intros E. inversion E. auto.
Qed.

Lemma rbind_Ok {A B} (c : result A) (k : A -> result B) b :
  rbind c k = Ok b -> exists a, c = Ok a /\ k a = Ok b.
Proof.
  destruct c as [a|e]; simpl; [|discriminate]. intros Hk. now exists a.
Qed.

Lemma ret_Ok {G A} (a b : A) (g g' : G) :
  ret a g = Ok (b, g') -> b = a /\ g' = g.
Proof. unfold ret. intros E. inversion E. auto. Qed.

(** Splits a successful computation into its successive calls. *)
Ltac invert_run :=
  repeat match goal with
  | E : bind _ _ _ = Ok _ |- _ =>
      let a := fresh "x" in let g := fresh "g" in
      let E1 := fresh "E" in let E2 := fresh "E" in
      apply bind_Ok in E; destruct E as (a & g & E1 & E2)
  | E : lift _ _ = Ok _ |- _ =>
      let E1 := fresh "E" in let Eg := fresh "Eg" in
      apply lift_Ok in E; destruct E as (E1 & Eg); subst
  | E : rbind _ _ = Ok _ |- _ =>
      let a := fresh "y" in
      let E1 := fresh "E" in let E2 := fresh "E" in
      apply rbind_Ok in E; destruct E as (a & E1 & E2)
  | E : ret _ _ = Ok _ |- _ =>
      let E1 := fresh "E" in let Eg := fresh "Eg" in
      apply ret_Ok in E; destruct E as (E1 & Eg); subst
  end.

(** A loop invariant is carried through every completed prefix of a loop. *)
Lemma for_range_invariant {G St} (body : nat -> St -> M G St)
      (I : nat -> St -> Prop) :
  (forall t s g s' g', I t s -> body t s g = Ok (s', g') -> I (S t) s') ->
  forall n start s g s' g',
    I start s ->
    for_range body start n s g = Ok (s', g') ->
    I (start + n)%nat s'.
Proof.
  intros Hbody. induction n as [|n IH]; intros start s g s' g' HI E; simpl in E.
  - apply ret_Ok in E. destruct E; subst. now rewrite Nat.add_0_r.
  - apply bind_Ok in E. destruct E as (s1 & g1 & E1 & E2).
    replace (start + S n)%nat with (S start + n)%nat by lia.
    eapply IH; [|exact E2]. eapply Hbody; eauto.
Qed.

(** A loop whose body always succeeds under the invariant completes. *)
Lemma for_range_total {G St} (body : nat -> St -> M G St)
      (I : nat -> St -> Prop) (bound : nat) :
  (forall t s g, (t < bound)%nat -> I t s ->
     exists s' g', body t s g = Ok (s', g') /\ I (S t) s') ->
  forall n start s g,
    (start + n <= bound)%nat ->
    I start s ->
    exists s' g', for_range body start n s g = Ok (s', g') /\
                  I (start + n)%nat s'.
Proof.
  intros Hbody. induction n as [|n IH]; intros start s g Hle HI; simpl.
  - exists s, g. rewrite Nat.add_0_r. now split.
  - destruct (Hbody start s g) as (s1 & g1 & E1 & HI1); [lia|assumption|].
    unfold bind. rewrite E1.
    replace (start + S n)%nat with (S start + n)%nat by lia.
    apply IH; [lia|assumption].
Qed.

(** ** Arrays *)

Lemma Qltb_lt x y : Qltb x y = true <-> x < y.
Proof.
  unfold Qltb. rewrite negb_true_iff, <- not_true_iff_false, Qle_bool_iff.
  split; [apply Qnot_le_lt | apply Qlt_not_le].
Qed.

Lemma Qltb_ge x y : Qltb x y = false <-> y <= x.
Proof.
  unfold Qltb. rewrite negb_false_iff. apply Qle_bool_iff.
Qed.

Lemma np_full_Ok {A} (x : A) n :
  (0 <= n)%Z -> np_full x n = Ok (repeat x (Z.to_nat n)).
Proof.
  intros Hn. unfold np_full.
  destruct (Z.ltb_spec n 0); [lia|reflexivity].
Qed.

Lemma np_full_inv {A} (x : A) n a :
  np_full x n = Ok a -> (0 <= n)%Z /\ a = repeat x (Z.to_nat n).
Proof.
  unfold np_full. destruct (Z.ltb_spec n 0); [discriminate|].
  intros E. inversion E. auto.
Qed.

Lemma norm_index_Ok len i :
  (0 <= i < Z.of_nat len)%Z -> norm_index len i = Ok (Z.to_nat i).
Proof.
  intros Hi. unfold norm_index.
  destruct (Z.ltb_spec i (- Z.of_nat len)); [lia|].
  destruct (Z.leb_spec (Z.of_nat len) i); [lia|]. simpl.
  destruct (Z.ltb_spec i 0); [lia|reflexivity].
Qed.

Lemma norm_index_inv len i j :
  norm_index len i = Ok j ->
  (- Z.of_nat len <= i < Z.of_nat len)%Z /\ (j < len)%nat /\
  j = Z.to_nat (if (i <? 0)%Z then i + Z.of_nat len else i).
Proof.
  unfold norm_index.
  destruct (Z.ltb_spec i (- Z.of_nat len)); [discriminate|].
  destruct (Z.leb_spec (Z.of_nat len) i); [discriminate|]. simpl.
  intros E. inversion E. split; [lia|]. split; [|reflexivity].
  destruct (Z.ltb_spec i 0); lia.
Qed.

Lemma np_getitem_Ok {A} (a : list A) i d :
  (0 <= i < Z.of_nat (length a))%Z ->
  np_getitem a i = Ok (nth (Z.to_nat i) a d).
Proof.
  intros Hi. unfold np_getitem. rewrite norm_index_Ok by assumption. simpl.
  destruct (nth_error a (Z.to_nat i)) as [x|] eqn:E.
  - now rewrite (nth_error_nth _ _ d E).
  - apply nth_error_None in E. lia.
Qed.

Lemma np_getitem_inv {A} (a : list A) i x d :
  np_getitem a i = Ok x -> (0 <= i)%Z ->
  (i < Z.of_nat (length a))%Z /\ x = nth (Z.to_nat i) a d.
Proof.
  intros E Hi. unfold np_getitem in E. apply rbind_Ok in E.
  destruct E as (j & Ej & E). apply norm_index_inv in Ej.
  destruct Ej as (Hr & _ & ->).
  destruct (Z.ltb_spec i 0); [lia|]. split; [lia|].
  destruct (nth_error a (Z.to_nat i)) as [y|] eqn:En; [|discriminate].
  inversion E; subst. symmetry. now apply nth_error_nth.
Qed.

Lemma np_setitem_Ok {A} (a : list A) i x :
  (0 <= i < Z.of_nat (length a))%Z ->
  np_setitem a i x = Ok (list_set a (Z.to_nat i) x).
Proof.
  intros Hi. unfold np_setitem. now rewrite norm_index_Ok by assumption.
Qed.

Lemma np_setitem_inv {A} (a : list A) i x a' :
  np_setitem a i x = Ok a' -> (0 <= i)%Z ->
  (i < Z.of_nat (length a))%Z /\ a' = list_set a (Z.to_nat i) x.
Proof.
  intros E Hi. unfold np_setitem in E. apply rbind_Ok in E.
  destruct E as (j & Ej & E). apply norm_index_inv in Ej.
  destruct Ej as (Hr & _ & ->).
  destruct (Z.ltb_spec i 0); [lia|]. split; [lia|]. now inversion E.
Qed.

Lemma list_set_length {A} (a : list A) j x :
  length (list_set a j x) = length a.
Proof.
  revert j. induction a as [|y a IH]; intros [|j]; simpl; auto.
Qed.

Lemma nth_list_set_same {A} (a : list A) j x d :
  (j < length a)%nat -> nth j (list_set a j x) d = x.
Proof.
  revert j. induction a as [|y a IH]; intros [|j] Hj; simpl in *;
    try lia; auto. apply IH. lia.
Qed.

Lemma nth_list_set_other {A} (a : list A) i j x d :
  i <> j -> nth i (list_set a j x) d = nth i a d.
Proof.
  revert i j. induction a as [|y a IH]; intros [|i] [|j] Hij; simpl;
    try congruence; auto.
Qed.

Lemma Forall_list_set {A} (P : A -> Prop) a j x :
  Forall P a -> P x -> Forall P (list_set a j x).
Proof.
  intros Ha Hx. revert j.
  induction Ha as [|y a Hy Ha IH]; intros [|j]; simpl; auto.
Qed.

Lemma firstn_list_set_snoc {A} (a : list A) t x :
  (t < length a)%nat ->
  firstn (S t) (list_set a t x) = firstn t a ++ [x].
Proof.
  revert t. induction a as [|y a IH]; intros [|t] Ht; simpl in *; try lia.
  - reflexivity.
  - f_equal. apply IH. lia.
Qed.

Lemma argmax_from_range a : forall best_i best i,
  (0 <= best_i < i)%Z ->
  (0 <= argmax_from best_i best i a < i + Z.of_nat (length a))%Z.
Proof.
  induction a as [|x a IH]; intros best_i best i Hb; simpl.
  - lia.
  - destruct (Qltb best x).
    + specialize (IH i x (i + 1)%Z). lia.
    + specialize (IH best_i best (i + 1)%Z). lia.
Qed.

Lemma np_argmax_Ok a :
  a <> [] ->
  exists i, np_argmax a = Ok i /\ (0 <= i < Z.of_nat (length a))%Z.
Proof.
  destruct a as [|x a]; [congruence|]. intros _.
  exists (argmax_from 0 x 1 a). split; [reflexivity|].
  pose proof (argmax_from_range a x (best_i := 0) (i := 1)).
  simpl length. lia.
Qed.

Lemma np_argmax_inv a i :
  np_argmax a = Ok i -> (0 <= i < Z.of_nat (length a))%Z.
Proof.
  destruct a as [|x a]; [discriminate|]. intros E.
  destruct (@np_argmax_Ok (x :: a)) as (j & Ej & Hj); [congruence|].
  congruence.
Qed.

(** ** Statistics of a trace *)

Lemma combine_snoc {A B} (l : list A) (l' : list B) x y :
  length l = length l' ->
  combine (l ++ [x]) (l' ++ [y]) = combine l l' ++ [(x, y)].
Proof.
  revert l'. induction l as [|a l IH]; intros [|b l'] E; simpl in *;
    try discriminate; auto.
  f_equal. apply IH. congruence.
Qed.

Lemma history_snoc t rs cs r c :
  (t < length rs)%nat -> (t < length cs)%nat ->
  history (S t) (list_set rs t r) (list_set cs t c) =
  history t rs cs ++ [(r, c)].
Proof.
  intros Hr Hc. unfold history.
  rewrite !firstn_list_set_snoc by assumption.
  apply combine_snoc. rewrite !length_firstn. lia.
Qed.

Lemma history_length t rs cs :
  (t <= length rs)%nat -> (t <= length cs)%nat ->
  length (history t rs cs) = t.
Proof.
  intros Hr Hc. unfold history.
  rewrite length_combine, !length_firstn. lia.
Qed.

Lemma pulls_of_snoc a h r c :
  pulls_of a (h ++ [(r, c)]) =
  (pulls_of a h + (if (c =? a)%Z then 1 else 0))%nat.
Proof.
  induction h as [|[r' c'] h IH]; simpl; [lia|]. rewrite IH. lia.
Qed.

Lemma reward_sum_snoc a h r c :
  reward_sum a (h ++ [(r, c)]) ==
  reward_sum a h + (if (c =? a)%Z then r else 0).
Proof.
  induction h as [|[r' c'] h IH]; simpl; [ring|]. rewrite IH. ring.
Qed.

Lemma pulls_of_all a h :
  Forall (fun rc => snd rc = a) h -> pulls_of a h = length h.
Proof.
  induction 1 as [|[r c] h Hc Hh IH]; simpl in *; [reflexivity|].
  subst c. now rewrite Z.eqb_refl, IH.
Qed.

(** Entries of [np.cumsum] are sums of prefixes. *)
Lemma cumsum_from_nth a : forall acc t,
  (t < length a)%nat ->
  nth t (cumsum_from acc a) 0 == acc + total (firstn (S t) a).
Proof.
  induction a as [|x a IH]; intros acc t Ht; simpl in Ht; [lia|].
  destruct t as [|t].
  - simpl. unfold total. simpl. ring.
  - change (nth (S t) (cumsum_from acc (x :: a)) 0)
      with (nth t (cumsum_from (acc + x) a) 0).
    rewrite IH by lia. unfold total. simpl. ring.
Qed.

Lemma np_cumsum_nth a t :
  (t < length a)%nat -> nth t (np_cumsum a) 0 == total (firstn (S t) a).
Proof.
  destruct a as [|x a]; simpl; [lia|]. intros Ht.
  destruct t as [|t].
  - unfold total. simpl. ring.
  - rewrite cumsum_from_nth by lia. unfold total. simpl. ring.
Qed.

Lemma np_cumsum_step a t :
  (S t < length a)%nat ->
  nth (S t) (np_cumsum a) 0 == nth t (np_cumsum a) 0 + nth (S t) a 0.
Proof.
  intros Ht. rewrite !np_cumsum_nth by lia.
  clear - Ht. revert t Ht.
  induction a as [|x a IH]; intros t Ht; simpl in Ht; [lia|].
  destruct t as [|t].
  - destruct a as [|y a]; simpl in *; [lia|]. unfold total. simpl. ring.
  - change (total (firstn (S (S (S t))) (x :: a)))
      with (x + total (firstn (S (S t)) a)).
    change (total (firstn (S (S t)) (x :: a)))
      with (x + total (firstn (S t) a)).
    rewrite IH by lia. simpl. ring.
Qed.

Lemma total_np_rsub optimal rs :
  total (np_rsub optimal rs) ==
  inject_Z (Z.of_nat (length rs)) * optimal - total rs.
Proof.
  induction rs as [|r rs IH].
  - unfold total. simpl. ring.
  - change (total (np_rsub optimal (r :: rs)))
      with ((optimal - r) + total (np_rsub optimal rs)).
    change (total (r :: rs)) with (r + total rs).
    rewrite IH. simpl length. rewrite Nat2Z.inj_succ.
    unfold Z.succ. rewrite inject_Z_plus. ring.
Qed.

Lemma np_rsub_length optimal rs : length (np_rsub optimal rs) = length rs.
Proof. apply length_map. Qed.

Lemma np_rsub_nth optimal rs t :
  (t < length rs)%nat -> nth t (np_rsub optimal rs) 0 = optimal - nth t rs 0.
Proof.
  intros Ht. unfold np_rsub.
  rewrite (nth_indep _ 0 (optimal - 0)) by (now rewrite length_map).
  apply (map_nth (fun x => optimal - x)).
Qed.

(** ** One step of the algorithms *)

Section StepLemmas.

Context {G : Type} `{RandomSource G}.

Open Scope py_scope.

Lemma drawn_reward_01 u p : drawn_reward u p = 0%Z \/ drawn_reward u p = 1%Z.
Proof. unfold drawn_reward. destruct (Qltb u p); auto. Qed.

Lemma pull_Ok env arm g :
  (0 <= arm < Z.of_nat (length (ctrs env)))%Z ->
  pull env arm g =
  Ok (drawn_reward (fst (random_rand g)) (nth (Z.to_nat arm) (ctrs env) 0),
      snd (random_rand g)).
Proof.
  intros Harm. unfold pull, bind, np_random_rand.
  destruct (random_rand g) as [u g1]. simpl.
  now rewrite (np_getitem_Ok _ 0 Harm).
Qed.

Lemma pull_inv env arm g r g' :
  pull env arm g = Ok (r, g') ->
  (- Z.of_nat (length (ctrs env)) <= arm < Z.of_nat (length (ctrs env)))%Z /\
  (r = 0 \/ r = 1)%Z.
Proof.
  intros E. unfold pull in E. invert_run.
  match goal with
  | E : np_getitem _ _ = Ok _ |- _ =>
      unfold np_getitem in E; apply rbind_Ok in E;
      destruct E as (j & Ej & _); apply norm_index_inv in Ej
  end.
  split; [tauto|]. apply drawn_reward_01.
Qed.

Lemma incremental_update_Ok cs vs arm r :
  (0 <= arm < Z.of_nat (length cs))%Z -> length vs = length cs ->
  let j := Z.to_nat arm in
  let c := nth j cs 0 + 1 in
  let v := nth j vs 0 in
  incremental_update cs vs arm r =
  Ok (list_set cs j c, list_set vs j (v + (inject_Z r - v) / c)).
Proof.
  intros Harm Hlen j c v. unfold incremental_update.
  rewrite (np_getitem_Ok _ 0 Harm). simpl.
  rewrite (np_setitem_Ok _ _ Harm). simpl.
  rewrite (@np_getitem_Ok _ vs arm 0) by (rewrite Hlen; exact Harm). simpl.
  rewrite (@np_getitem_Ok _ (list_set cs (Z.to_nat arm) _) arm 0)
    by (rewrite list_set_length; exact Harm). simpl.
  rewrite np_setitem_Ok by (rewrite Hlen; exact Harm). simpl.
  rewrite nth_list_set_same by lia. reflexivity.
Qed.

Lemma incremental_update_inv cs vs arm r cv :
  incremental_update cs vs arm r = Ok cv -> (0 <= arm)%Z ->
  let j := Z.to_nat arm in
  let c := nth j cs 0 + 1 in
  let v := nth j vs 0 in
  (j < length cs)%nat /\ (j < length vs)%nat /\
  cv = (list_set cs j c, list_set vs j (v + (inject_Z r - v) / c)).
Proof.
  intros E Harm j c v. unfold incremental_update in E.
  apply rbind_Ok in E. destruct E as (c0 & Ec0 & E).
  apply rbind_Ok in E. destruct E as (cs' & Ecs' & E).
  apply rbind_Ok in E. destruct E as (v1 & Ev1 & E).
  apply rbind_Ok in E. destruct E as (v2 & Ev2 & E).
  apply rbind_Ok in E. destruct E as (c' & Ec' & E).
  apply rbind_Ok in E. destruct E as (vs' & Evs' & E).
  apply np_getitem_inv with (d := 0%Q) in Ec0; [|assumption].
  destruct Ec0 as (Hc & ->).
  apply np_setitem_inv in Ecs'; [|assumption]. destruct Ecs' as (_ & ->).
  apply np_getitem_inv with (d := 0%Q) in Ev1; [|assumption].
  destruct Ev1 as (Hv & ->).
  apply np_getitem_inv with (d := 0%Q) in Ev2; [|assumption].
  destruct Ev2 as (_ & ->).
  apply np_getitem_inv with (d := 0%Q) in Ec'; [|assumption].
  destruct Ec' as (_ & ->).
  apply np_setitem_inv in Evs'; [|assumption]. destruct Evs' as (_ & ->).
  rewrite nth_list_set_same in E by lia.
  split; [lia|]. split; [lia|]. now inversion E.
Qed.

Lemma eg_step_observe env eps t st :
  eg_step env eps t st =
  (u <- np_random_rand ;;
   arm <- (if Qltb u eps then np_random_randint (K env)
           else lift (np_argmax (values st))) ;;
   observe env t st arm).
Proof. reflexivity. Qed.

Lemma ucb_step_observe np_sqrt np_log env t st :
  ucb_step np_sqrt np_log env t st =
  (arm <- lift (np_argmax (ucb_bounds np_sqrt np_log t st)) ;;
   observe env t st arm).
Proof. reflexivity. Qed.

Lemma observe_Ok env t st arm g :
  (0 <= arm < Z.of_nat (length (ctrs env)))%Z ->
  (Z.to_nat arm < length (counts st))%nat ->
  length (values st) = length (counts st) ->
  (t < length (rewards st))%nat -> (t < length (chosen st))%nat ->
  exists r, (r = 0 \/ r = 1)%Z /\
    observe env t st arm g = Ok (observed st t arm r, snd (random_rand g)).
Proof.
  intros Harm Hc Hv Hr Hch.
  exists (drawn_reward (fst (random_rand g)) (nth (Z.to_nat arm) (ctrs env) 0)).
  split; [apply drawn_reward_01|].
  unfold observe, bind. rewrite pull_Ok by assumption.
  unfold lift. rewrite incremental_update_Ok by (try assumption; lia).
  rewrite !np_setitem_Ok by lia. rewrite Nat2Z.id. reflexivity.
Qed.

Lemma observe_inv env t st arm g st' g' :
  observe env t st arm g = Ok (st', g') -> (0 <= arm)%Z ->
  exists r, (r = 0 \/ r = 1)%Z /\
    (arm < Z.of_nat (length (ctrs env)))%Z /\
    (Z.to_nat arm < length (counts st))%nat /\
    (Z.to_nat arm < length (values st))%nat /\
    (t < length (rewards st))%nat /\ (t < length (chosen st))%nat /\
    st' = observed st t arm r.
Proof.
  intros E Harm. unfold observe in E.
  apply bind_Ok in E. destruct E as (r & g1 & Er & E).
  apply bind_Ok in E. destruct E as (cv & g2 & Ecv & E).
  apply bind_Ok in E. destruct E as (rs' & g3 & Ers & E).
  apply bind_Ok in E. destruct E as (ch' & g4 & Ech & E).
  apply ret_Ok in E. destruct E as (-> & _).
  apply lift_Ok in Ecv, Ers, Ech.
  destruct Ecv as (Ecv & _), Ers as (Ers & _), Ech as (Ech & _).
  apply pull_inv in Er. destruct Er as (Hp & Hr).
  apply incremental_update_inv in Ecv; [|assumption].
  destruct Ecv as (Hc & Hv & ->).
  apply np_setitem_inv in Ers; [|lia]. destruct Ers as (Ht & ->).
  apply np_setitem_inv in Ech; [|lia]. destruct Ech as (Ht' & ->).
  rewrite Nat2Z.id. exists r. repeat split; try assumption; lia.
Qed.

End StepLemmas.

(** ** The incremental mean *)

Section MeanInvariant.

Variable c0 : Q.
Hypothesis c0_nonneg : 0 <= c0.

Lemma mean_inv_init nK rs cs :
  mean_inv c0 0 {| counts := repeat c0 nK; values := repeat 0 nK;
                rewards := rs; chosen := cs |}.
Proof.
  intros a Ha. simpl in *. rewrite repeat_length in Ha.
  rewrite !nth_repeat_lt by assumption. split; ring.
Qed.

Lemma mean_inv_observed t st arm r :
  (0 <= arm)%Z -> (Z.to_nat arm < length (counts st))%nat ->
  (Z.to_nat arm < length (values st))%nat ->
  (t < length (rewards st))%nat -> (t < length (chosen st))%nat ->
  mean_inv c0 t st -> mean_inv c0 (S t) (observed st t arm r).
Proof.
  intros Harm Hc Hv Hr Hch Hinv a Ha. unfold observed in *. simpl in *.
  rewrite list_set_length in Ha. destruct (Hinv a Ha) as (Hcnt & Hval).
  rewrite history_snoc, pulls_of_snoc, reward_sum_snoc by assumption.
  destruct (Z.eqb_spec arm (Z.of_nat a)) as [->|Hne].
  - rewrite Nat2Z.id in *. rewrite !nth_list_set_same by assumption.
    assert (Hpos : ~ nth a (counts st) 0 + 1 == 0).
    { rewrite Hcnt. intros E.
      assert (0 <= inject_Z (Z.of_nat
                (pulls_of (Z.of_nat a) (history t (rewards st) (chosen st))))).
      { change 0 with (inject_Z 0). rewrite <- Zle_Qle. lia. }
      lra. }
    split.
    + rewrite Hcnt, Nat2Z.inj_add, inject_Z_plus. simpl. ring.
    + rewrite <- Hval. field. exact Hpos.
  - assert (Z.to_nat arm <> a) by lia.
    rewrite !nth_list_set_other by lia. split.
    + rewrite Hcnt, Nat.add_0_r. reflexivity.
    + rewrite Hval. ring.
Qed.

End MeanInvariant.

(** ** Runs of epsilon_greedy and ucb1 *)

Section MeanRuns.

Context {G : Type} `{RandomSource G}.

Open Scope py_scope.

Lemma observe_mean_step env t st arm g st' g' :
  observe env t st arm g = Ok (st', g') -> (0 <= arm)%Z ->
  mean_step env t st st'.
Proof.
  intros E Harm. apply observe_inv in E; [|exact Harm].
  destruct E as (r & Hr). exists arm, r. intuition.
Qed.

Lemma eg_step_inv `{!RandomSourceLaws G} env eps t st g st' g' :
  eg_step env eps t st g = Ok (st', g') -> mean_step env t st st'.
Proof.
  rewrite eg_step_observe. intros E.
  apply bind_Ok in E. destruct E as (u & g1 & _ & E).
  apply bind_Ok in E. destruct E as (arm & g2 & Earm & E).
  apply observe_mean_step in E; [exact E|].
  destruct (Qltb u eps).
  - unfold np_random_randint in Earm.
    destruct (Z.leb_spec (K env) 0) as [|HK]; [discriminate|].
    inversion Earm as [Ea].
    pose proof (randint_range g1 HK) as Hr. rewrite Ea in Hr. simpl in Hr. lia.
  - apply lift_Ok in Earm. destruct Earm as (Earm & _).
    apply np_argmax_inv in Earm. lia.
Qed.

Lemma ucb_step_inv np_sqrt np_log env t st g st' g' :
  ucb_step np_sqrt np_log env t st g = Ok (st', g') -> mean_step env t st st'.
Proof.
  rewrite ucb_step_observe. intros E.
  apply bind_Ok in E. destruct E as (arm & g1 & Earm & E).
  apply observe_mean_step in E; [exact E|].
  apply lift_Ok in Earm. destruct Earm as (Earm & _).
  apply np_argmax_inv in Earm. lia.
Qed.

Lemma shape_inv_observed nK nT st t arm r :
  shape_inv nK nT st -> shape_inv nK nT (observed st t arm r).
Proof.
  unfold shape_inv, observed. simpl. now rewrite !list_set_length.
Qed.

Lemma run_inv_step c0 nK nT env t st st' :
  0 <= c0 -> run_inv c0 nK nT t st -> mean_step env t st st' ->
  run_inv c0 nK nT (S t) st'.
Proof.
  intros Hc0 (Hshape & Ht & Hmean) (arm & r & Harm & Hr & Hc & Hv & Hrs & Hch & ->).
  split; [now apply shape_inv_observed|].
  split; [destruct Hshape as (_ & _ & <- & _); lia|].
  apply mean_inv_observed; try assumption; lia.
Qed.

Lemma init_inv c0 (kK T : Z) cs vs rs ch :
  np_full c0 kK = Ok cs -> np_zeros kK = Ok vs ->
  np_zeros T = Ok rs -> np_zeros_int T = Ok ch ->
  (0 <= kK)%Z /\ (0 <= T)%Z /\
  {| counts := cs; values := vs; rewards := rs; chosen := ch |} =
  {| counts := repeat c0 (Z.to_nat kK); values := repeat 0 (Z.to_nat kK);
     rewards := repeat 0 (Z.to_nat T); chosen := repeat 0%Z (Z.to_nat T) |}.
Proof.
  intros E1 E2 E3 E4.
  apply np_full_inv in E1, E2, E3, E4.
  destruct E1 as (? & ->), E2 as (_ & ->), E3 as (? & ->), E4 as (_ & ->).
  auto.
Qed.

Lemma run_inv_init c0 nK nT :
  run_inv c0 nK nT 0
    {| counts := repeat c0 nK; values := repeat 0 nK;
       rewards := repeat 0 nT; chosen := repeat 0%Z nT |}.
Proof.
  split; [|split; [lia|apply mean_inv_init]].
  unfold shape_inv. simpl. now rewrite !repeat_length.
Qed.

Lemma eg_init_inv env T st :
  eg_init env T = Ok st ->
  (0 <= K env)%Z /\ (0 <= T)%Z /\
  st = {| counts := repeat 0 (Z.to_nat (K env));
          values := repeat 0 (Z.to_nat (K env));
          rewards := repeat 0 (Z.to_nat T);
          chosen := repeat 0%Z (Z.to_nat T) |}.
Proof.
  unfold eg_init. intros E.
  apply rbind_Ok in E. destruct E as (cs & E1 & E).
  apply rbind_Ok in E. destruct E as (vs & E2 & E).
  apply rbind_Ok in E. destruct E as (rs & E3 & E).
  apply rbind_Ok in E. destruct E as (ch & E4 & E).
  inversion E. now apply init_inv.
Qed.

Lemma ucb_init_inv env T st :
  ucb_init env T = Ok st ->
  (0 <= K env)%Z /\ (0 <= T)%Z /\
  st = {| counts := repeat 1 (Z.to_nat (K env));
          values := repeat 0 (Z.to_nat (K env));
          rewards := repeat 0 (Z.to_nat T);
          chosen := repeat 0%Z (Z.to_nat T) |}.
Proof.
  unfold ucb_init. intros E.
  apply rbind_Ok in E. destruct E as (cs & E1 & E).
  apply rbind_Ok in E. destruct E as (vs & E2 & E).
  apply rbind_Ok in E. destruct E as (rs & E3 & E).
  apply rbind_Ok in E. destruct E as (ch & E4 & E).
  inversion E. now apply init_inv.
Qed.

Lemma eg_steps_inv `{!RandomSourceLaws G} env T eps n g st g' :
  eg_steps env T eps n g = Ok (st, g') ->
  run_inv 0 (Z.to_nat (K env)) (Z.to_nat T) n st.
Proof.
  unfold eg_steps. intros E.
  apply bind_Ok in E. destruct E as (st0 & g0 & E0 & E).
  apply lift_Ok in E0. destruct E0 as (E0 & ->).
  apply eg_init_inv in E0. destruct E0 as (_ & _ & ->).
  apply (for_range_invariant (eg_step env eps)
           (run_inv 0 (Z.to_nat (K env)) (Z.to_nat T))) in E.
  - exact E.
  - intros t s g1 s' g1' HI Es. apply (run_inv_step (env := env)) with (st := s);
      [lra|assumption|]. eapply eg_step_inv; eauto.
  - apply run_inv_init.
Qed.

Lemma ucb_steps_inv np_sqrt np_log env T n g st g' :
  ucb_steps np_sqrt np_log env T n g = Ok (st, g') ->
  run_inv 1 (Z.to_nat (K env)) (Z.to_nat T) n st.
Proof.
  unfold ucb_steps. intros E.
  apply bind_Ok in E. destruct E as (st0 & g0 & E0 & E).
  apply lift_Ok in E0. destruct E0 as (E0 & ->).
  apply ucb_init_inv in E0. destruct E0 as (_ & _ & ->).
  apply (for_range_invariant (ucb_step np_sqrt np_log env)
           (run_inv 1 (Z.to_nat (K env)) (Z.to_nat T))) in E.
  - exact E.
  - intros t s g1 s' g1' HI Es. apply (run_inv_step (env := env)) with (st := s);
      [lra|assumption|]. eapply ucb_step_inv; eauto.
  - apply run_inv_init.
Qed.

End MeanRuns.

(** ** Runs on a well-formed environment complete *)

Section Totality.

Context {G : Type} `{RandomSource G} `{!RandomSourceLaws G}.

Variable env : AdBandit.
Hypothesis env_arms : (0 < K env)%Z.
Hypothesis env_shape : Z.of_nat (length (ctrs env)) = K env.

Open Scope py_scope.

Lemma reward_ok_inject r : (r = 0 \/ r = 1)%Z -> reward_ok (inject_Z r).
Proof. intros [-> | ->]; [left | right]; reflexivity. Qed.

Lemma trace_inv_init c0 nT :
  trace_inv env nT {| counts := repeat c0 (Z.to_nat (K env));
                  values := repeat 0 (Z.to_nat (K env));
                  rewards := repeat 0 nT; chosen := repeat 0%Z nT |}.
Proof.
  split; [|split]; simpl.
  - unfold shape_inv. simpl. now rewrite !repeat_length.
  - apply Forall_forall. intros r Hr. apply repeat_spec in Hr. now left.
  - apply Forall_forall. intros c Hc. apply repeat_spec in Hc.
    unfold arm_ok. lia.
Qed.

Lemma observe_total nT t st arm g :
  (t < nT)%nat -> arm_ok env arm -> trace_inv env nT st ->
  exists st' g', observe env t st arm g = Ok (st', g') /\ trace_inv env nT st'.
Proof.
  intros Ht Harm ((Hc & Hv & Hr & Hch) & Hrs & Hcs). unfold arm_ok in Harm.
  destruct (@observe_Ok _ _ env t st arm g) as (r & Hr01 & E);
    try lia; try congruence.
  exists (observed st t arm r), (snd (random_rand g)).
  split; [exact E|]. split; [|split].
  - apply shape_inv_observed. now repeat split.
  - apply Forall_list_set; [assumption|now apply reward_ok_inject].
  - apply Forall_list_set; assumption.
Qed.

Lemma eg_step_total eps nT t st g :
  (t < nT)%nat -> trace_inv env nT st ->
  exists st' g', eg_step env eps t st g = Ok (st', g') /\ trace_inv env nT st'.
Proof.
  intros Ht Hinv. rewrite eg_step_observe. unfold bind at 1.
  unfold np_random_rand. destruct (random_rand g) as [u g1].
  unfold bind. destruct (Qltb u eps).
  - unfold np_random_randint.
    destruct (Z.leb_spec (K env) 0) as [|HK]; [lia|].
    pose proof (randint_range g1 HK) as Hr.
    destruct (random_randint (K env) g1) as [arm g2]. simpl in Hr.
    now apply observe_total.
  - destruct Hinv as (Hshape & Hrest).
    destruct (@np_argmax_Ok (values st)) as (arm & Earm & Harm).
    { destruct Hshape as (_ & Hv & _). intros E. rewrite E in Hv.
      simpl in Hv. lia. }
    unfold lift. rewrite Earm.
    apply observe_total; [assumption| |now split].
    destruct Hshape as (_ & Hv & _). unfold arm_ok. lia.
Qed.

Lemma ucb_bounds_length np_sqrt np_log t st :
  length (values st) = length (counts st) ->
  length (ucb_bounds np_sqrt np_log t st) = length (counts st).
Proof.
  intros E. unfold ucb_bounds, np_add.
  rewrite length_map, length_combine, !length_map. lia.
Qed.

Lemma ucb_step_total np_sqrt np_log nT t st g :
  (t < nT)%nat -> trace_inv env nT st ->
  exists st' g',
    ucb_step np_sqrt np_log env t st g = Ok (st', g') /\ trace_inv env nT st'.
Proof.
  intros Ht Hinv. rewrite ucb_step_observe. unfold bind.
  pose proof Hinv as ((Hc & Hv & _) & _).
  pose proof (@ucb_bounds_length np_sqrt np_log t st) as Hlen.
  destruct (@np_argmax_Ok (ucb_bounds np_sqrt np_log t st))
    as (arm & Earm & Harm).
  { intros E. rewrite E in Hlen. simpl in Hlen. lia. }
  unfold lift. rewrite Earm.
  apply observe_total; [assumption| |assumption].
  unfold arm_ok. lia.
Qed.

Lemma trace_inv_trace_ok T st :
  (0 <= T)%Z -> trace_inv env (Z.to_nat T) st ->
  trace_ok (K env) T (rewards st, chosen st).
Proof.
  intros HT ((_ & _ & Hr & Hc) & Hrs & Hcs).
  unfold trace_ok. simpl. repeat split; try assumption; lia.
Qed.

Lemma eg_init_Ok T :
  (0 <= T)%Z ->
  eg_init env T =
  Ok {| counts := repeat 0 (Z.to_nat (K env));
        values := repeat 0 (Z.to_nat (K env));
        rewards := repeat 0 (Z.to_nat T); chosen := repeat 0%Z (Z.to_nat T) |}.
Proof.
  intros HT. unfold eg_init, np_zeros, np_zeros_int.
  rewrite !np_full_Ok by lia. reflexivity.
Qed.

Lemma ucb_init_Ok T :
  (0 <= T)%Z ->
  ucb_init env T =
  Ok {| counts := repeat 1 (Z.to_nat (K env));
        values := repeat 0 (Z.to_nat (K env));
        rewards := repeat 0 (Z.to_nat T); chosen := repeat 0%Z (Z.to_nat T) |}.
Proof.
  intros HT. unfold ucb_init, np_ones, np_zeros, np_zeros_int.
  rewrite !np_full_Ok by lia. reflexivity.
Qed.

(** Every prefix of a run of [epsilon_greedy] completes. *)
Lemma eg_steps_total T eps n g :
  (0 <= T)%Z -> (n <= Z.to_nat T)%nat ->
  exists st g', eg_steps env T eps n g = Ok (st, g') /\
                trace_inv env (Z.to_nat T) st.
Proof.
  intros HT Hn. unfold eg_steps, bind at 1, lift. rewrite eg_init_Ok by assumption.
  apply (for_range_total (eg_step env eps)
           (fun _ => trace_inv env (Z.to_nat T)) (bound := Z.to_nat T)).
  - intros t s g1 Ht HI. now apply eg_step_total.
  - lia.
  - apply trace_inv_init.
Qed.

Lemma ucb_steps_total np_sqrt np_log T n g :
  (0 <= T)%Z -> (n <= Z.to_nat T)%nat ->
  exists st g', ucb_steps np_sqrt np_log env T n g = Ok (st, g') /\
                trace_inv env (Z.to_nat T) st.
Proof.
  intros HT Hn. unfold ucb_steps, bind at 1, lift.
  rewrite ucb_init_Ok by assumption.
  apply (for_range_total (ucb_step np_sqrt np_log env)
           (fun _ => trace_inv env (Z.to_nat T)) (bound := Z.to_nat T)).
  - intros t s g1 Ht HI. now apply ucb_step_total.
  - lia.
  - apply trace_inv_init.
Qed.

Lemma epsilon_greedy_total T eps g :
  (0 <= T)%Z ->
  exists tr g', epsilon_greedy env T eps g = Ok (tr, g') /\
                trace_ok (K env) T tr.
Proof.
  intros HT.
  destruct (@eg_steps_total T eps (Z.to_nat T) g) as (st & g' & E & Hinv);
    [assumption|lia|].
  exists (rewards st, chosen st), g'. unfold epsilon_greedy, bind.
  rewrite E. split; [reflexivity|now apply trace_inv_trace_ok].
Qed.

Lemma ucb1_total np_sqrt np_log T g :
  (0 <= T)%Z ->
  exists tr g', ucb1 np_sqrt np_log env T g = Ok (tr, g') /\
                trace_ok (K env) T tr.
Proof.
  intros HT.
  destruct (@ucb_steps_total np_sqrt np_log T (Z.to_nat T) g)
    as (st & g' & E & Hinv); [assumption|lia|].
  exists (rewards st, chosen st), g'. unfold ucb1, bind.
  rewrite E. split; [reflexivity|now apply trace_inv_trace_ok].
Qed.

End Totality.

(** ** Runs of thompson_sampling *)

Section Thompson.

Context {G : Type} `{RandomSource G}.

Open Scope py_scope.

Lemma ts_step_inv env t st g st' g' :
  ts_step env t st g = Ok (st', g') -> ts_step_rel env t st st'.
Proof.
  unfold ts_step. intros E.
  apply bind_Ok in E. destruct E as (theta & g1 & _ & E).
  apply bind_Ok in E. destruct E as (arm & g2 & Earm & E).
  apply bind_Ok in E. destruct E as (r & g3 & Er & E).
  apply bind_Ok in E. destruct E as (rs' & g4 & Ers & E).
  apply bind_Ok in E. destruct E as (ch' & g5 & Ech & E).
  apply bind_Ok in E. destruct E as (a & g6 & Ea & E).
  apply bind_Ok in E. destruct E as (al' & g7 & Eal & E).
  apply bind_Ok in E. destruct E as (b & g8 & Eb & E).
  apply bind_Ok in E. destruct E as (be' & g9 & Ebe & E).
  apply ret_Ok in E. destruct E as (-> & _).
  apply lift_Ok in Earm, Ers, Ech, Ea, Eal, Eb, Ebe.
  destruct Earm as (Earm & _), Ers as (Ers & _), Ech as (Ech & _),
    Ea as (Ea & _), Eal as (Eal & _), Eb as (Eb & _), Ebe as (Ebe & _).
  apply np_argmax_inv in Earm. destruct Earm as (Harm & _).
  apply pull_inv in Er. destruct Er as (Hp & Hr).
  apply np_setitem_inv in Ers; [|lia]. destruct Ers as (Ht & ->).
  apply np_setitem_inv in Ech; [|lia]. destruct Ech as (Ht' & ->).
  apply np_getitem_inv with (d := 0%Q) in Ea; [|assumption].
  destruct Ea as (Ha & ->).
  apply np_setitem_inv in Eal; [|assumption]. destruct Eal as (_ & ->).
  apply np_getitem_inv with (d := 0%Q) in Eb; [|assumption].
  destruct Eb as (Hb & ->).
  apply np_setitem_inv in Ebe; [|assumption]. destruct Ebe as (_ & ->).
  rewrite Nat2Z.id. exists arm, r. repeat split; try assumption; lia.
Qed.

Lemma ts_shape_observed nK nT st t arm r :
  ts_shape nK nT st -> ts_shape nK nT (ts_observed st t arm r).
Proof.
  unfold ts_shape, ts_observed. simpl. now rewrite !list_set_length.
Qed.

Lemma ts_inv_step nK nT env t st st' :
  ts_inv nK nT t st -> ts_step_rel env t st st' -> ts_inv nK nT (S t) st'.
Proof.
  intros (Hshape & Ht & Hinv)
         (arm & r & Harm & Hr & Ha & Hb & Hrs & Hch & ->).
  split; [now apply ts_shape_observed|].
  split; [destruct Hshape as (_ & _ & <- & _); lia|].
  intros a Hlt. unfold ts_observed in *.
  cbn [alpha beta ts_rewards ts_chosen] in *.
  rewrite list_set_length in Hlt.
  destruct (Hinv a Hlt) as (Hal & Hbe & Hsum & Hcnt).
  rewrite history_snoc, pulls_of_snoc, reward_sum_snoc by assumption.
  destruct (Z.eqb_spec arm (Z.of_nat a)) as [->|Hne].
  - rewrite Nat2Z.id in *. rewrite !nth_list_set_same by assumption.
    rewrite Nat2Z.inj_add, inject_Z_plus.
    destruct Hr as [-> | ->];
      change (inject_Z (1 - 0)) with 1; change (inject_Z (1 - 1)) with 0;
      change (inject_Z 0) with 0; change (inject_Z (Z.of_nat 1)) with 1;
      change (inject_Z 1) with 1; repeat split; lra.
  - assert (Z.to_nat arm <> a) by lia.
    rewrite !nth_list_set_other by lia. rewrite Nat.add_0_r.
    repeat split; try assumption; lra.
Qed.

Lemma ts_init_inv env T st :
  ts_init env T = Ok st ->
  (0 <= K env)%Z /\ (0 <= T)%Z /\
  st = {| alpha := repeat 1 (Z.to_nat (K env));
          beta := repeat 1 (Z.to_nat (K env));
          ts_rewards := repeat 0 (Z.to_nat T);
          ts_chosen := repeat 0%Z (Z.to_nat T) |}.
Proof.
  unfold ts_init. intros E.
  apply rbind_Ok in E. destruct E as (al & E1 & E).
  apply rbind_Ok in E. destruct E as (be & E2 & E).
  apply rbind_Ok in E. destruct E as (rs & E3 & E).
  apply rbind_Ok in E. destruct E as (ch & E4 & E).
  apply np_full_inv in E1, E2, E3, E4.
  destruct E1 as (? & ->), E2 as (_ & ->), E3 as (? & ->), E4 as (_ & ->).
  inversion E. auto.
Qed.

Lemma ts_inv_init nK nT :
  ts_inv nK nT 0 {| alpha := repeat 1 nK; beta := repeat 1 nK;
                    ts_rewards := repeat 0 nT; ts_chosen := repeat 0%Z nT |}.
Proof.
  split; [|split; [lia|]].
  - unfold ts_shape. simpl. now rewrite !repeat_length.
  - intros a Ha. simpl in *. rewrite repeat_length in Ha.
    rewrite !nth_repeat_lt by assumption. repeat split; try lra.
Qed.

Lemma ts_steps_inv env T n g st g' :
  ts_steps env T n g = Ok (st, g') ->
  ts_inv (Z.to_nat (K env)) (Z.to_nat T) n st.
Proof.
  unfold ts_steps. intros E.
  apply bind_Ok in E. destruct E as (st0 & g0 & E0 & E).
  apply lift_Ok in E0. destruct E0 as (E0 & ->).
  apply ts_init_inv in E0. destruct E0 as (_ & _ & ->).
  apply (for_range_invariant (ts_step env)
           (ts_inv (Z.to_nat (K env)) (Z.to_nat T))) in E.
  - exact E.
  - intros t s g1 s' g1' HI Es. apply ts_inv_step with (env := env) (st := s);
      [assumption|]. eapply ts_step_inv; eauto.
  - apply ts_inv_init.
Qed.

End Thompson.

Section ThompsonTotality.

Context {G : Type} `{RandomSource G} `{!RandomSourceLaws G}.

Variable env : AdBandit.
Hypothesis env_arms : (0 < K env)%Z.
Hypothesis env_shape : Z.of_nat (length (ctrs env)) = K env.

Open Scope py_scope.

Lemma positive_parameters a :
  Forall (Qle 1) a -> forallb (Qltb 0) a = true.
Proof.
  intros Ha. apply forallb_forall. intros x Hx.
  rewrite Forall_forall in Ha. specialize (Ha x Hx).
  apply Qltb_lt. lra.
Qed.

Lemma ts_step_total nT t st g :
  (t < nT)%nat -> ts_trace_inv env nT st ->
  exists st' g', ts_step env t st g = Ok (st', g') /\ ts_trace_inv env nT st'.
Proof.
  intros Ht ((Hal & Hbe & Hrs & Hch) & Hpa & Hpb & Hr & Hc).
  unfold ts_step, bind, np_random_beta.
  rewrite (positive_parameters Hpa), (positive_parameters Hpb). simpl andb.
  assert (Hlen : length (alpha st) = length (beta st)) by congruence.
  pose proof (beta_shape (alpha st) (beta st) g Hlen) as Hth.
  destruct (random_beta (alpha st) (beta st) g) as [theta g1]. simpl in Hth.
  destruct (@np_argmax_Ok theta) as (arm & Earm & Harm).
  { intros E. rewrite E in Hth. simpl in Hth. lia. }
  unfold lift. rewrite Earm. rewrite pull_Ok by lia.
  set (r := drawn_reward _ _).
  destruct (drawn_reward_01 (fst (random_rand g1))
              (nth (Z.to_nat arm) (ctrs env) 0)) as [Hr0 | Hr1];
    fold r in Hr0 || fold r in Hr1.
  all: rewrite !np_setitem_Ok by lia.
  all: rewrite (@np_getitem_Ok _ (alpha st) arm 0) by lia.
  all: rewrite np_setitem_Ok by lia.
  all: rewrite (@np_getitem_Ok _ (beta st) arm 0) by lia.
  all: rewrite np_setitem_Ok by lia.
  all: eexists; eexists; split; [reflexivity|].
  all: assert (Hj : (Z.to_nat arm < length (alpha st))%nat) by lia.
  all: assert (Hj' : (Z.to_nat arm < length (beta st))%nat) by lia.
  all: pose proof (proj1 (Forall_nth _ _) Hpa _ 0 Hj) as Ha1.
  all: pose proof (proj1 (Forall_nth _ _) Hpb _ 0 Hj') as Hb1.
  all: unfold ts_trace_inv, ts_shape; cbn [alpha beta ts_rewards ts_chosen].
  all: rewrite !list_set_length.
  all: repeat split; try assumption; apply Forall_list_set; try assumption.
  all: try (apply reward_ok_inject; lia).
  all: try (unfold arm_ok; lia).
  all: try rewrite Hr0; try rewrite Hr1.
  all: change (inject_Z (1 - 0)) with 1; change (inject_Z (1 - 1)) with 0;
       change (inject_Z 0) with 0; change (inject_Z 1) with 1; lra.
Qed.

Lemma ts_init_Ok T :
  (0 <= T)%Z ->
  ts_init env T =
  Ok {| alpha := repeat 1 (Z.to_nat (K env));
        beta := repeat 1 (Z.to_nat (K env));
        ts_rewards := repeat 0 (Z.to_nat T);
        ts_chosen := repeat 0%Z (Z.to_nat T) |}.
Proof.
  intros HT. unfold ts_init, np_ones, np_zeros, np_zeros_int.
  rewrite !np_full_Ok by lia. reflexivity.
Qed.

Lemma ts_trace_inv_init nT :
  ts_trace_inv env nT {| alpha := repeat 1 (Z.to_nat (K env));
                     beta := repeat 1 (Z.to_nat (K env));
                     ts_rewards := repeat 0 nT; ts_chosen := repeat 0%Z nT |}.
Proof.
  unfold ts_trace_inv, ts_shape. simpl. rewrite !repeat_length.
  repeat split; apply Forall_forall; intros x Hx; apply repeat_spec in Hx;
    subst x.
  - lra.
  - lra.
  - now left.
  - unfold arm_ok. lia.
Qed.

Lemma ts_steps_total T n g :
  (0 <= T)%Z -> (n <= Z.to_nat T)%nat ->
  exists st g', ts_steps env T n g = Ok (st, g') /\
                ts_trace_inv env (Z.to_nat T) st.
Proof.
  intros HT Hn. unfold ts_steps, bind at 1, lift.
  rewrite ts_init_Ok by assumption.
  apply (for_range_total (ts_step env)
           (fun _ => ts_trace_inv env (Z.to_nat T)) (bound := Z.to_nat T)).
  - intros t s g1 Ht HI. now apply ts_step_total.
  - lia.
  - apply ts_trace_inv_init.
Qed.

Lemma thompson_sampling_total T g :
  (0 <= T)%Z ->
  exists tr g', thompson_sampling env T g = Ok (tr, g') /\
                trace_ok (K env) T tr.
Proof.
  intros HT.
  destruct (@ts_steps_total T (Z.to_nat T) g) as (st & g' & E & Hinv);
    [assumption|lia|].
  exists (ts_rewards st, ts_chosen st), g'. unfold thompson_sampling, bind.
  rewrite E. split; [reflexivity|].
  destruct Hinv as ((_ & _ & Hr & Hc) & _ & _ & Hrs & Hcs).
  unfold trace_ok. simpl. repeat split; try assumption; lia.
Qed.

End ThompsonTotality.

(** ** The concrete random source is lawful *)

Lemma counter_source_laws : @RandomSourceLaws Z CounterSource.counter_source.
Proof.
  split.
  - intros g. simpl. unfold Qle, Qlt. simpl.
    pose proof (Z.mod_pos_bound g 8). lia.
  - intros K0 g HK. simpl. apply Z.mod_pos_bound. exact HK.
  - intros a b g E. simpl. rewrite length_map, length_combine. lia.
Qed.

(* ================================================================== *)
(** * The claims *)

Section Claims.

Context {G : Type} `{RandomSource G}.

(** C1. For every environment with K >= 1 arms (as many probabilities as
    labels) and every horizon T >= 1, each of [epsilon_greedy], [ucb1] and
    [thompson_sampling] returns a trace of exactly T entries whose rewards
    are 0 or 1 and whose arm indices lie in [0, K). *)
Theorem traces_well_formed `{!RandomSourceLaws G} (np_sqrt np_log : Q -> Q)
    (ads0 : list string) (ctrs0 : list Q) (T : Z) (eps : Q) (g : G) :
  length ctrs0 = length ads0 -> (1 <= Z.of_nat (length ads0))%Z ->
  (1 <= T)%Z ->
  let env := AdBandit_init ads0 ctrs0 in
  (exists tr g', epsilon_greedy env T eps g = Ok (tr, g') /\
                 trace_ok (K env) T tr) /\
  (exists tr g', ucb1 np_sqrt np_log env T g = Ok (tr, g') /\
                 trace_ok (K env) T tr) /\
  (exists tr g', thompson_sampling env T g = Ok (tr, g') /\
                 trace_ok (K env) T tr).
Proof.
  intros Hlen HK HT env.
  assert (Harms : (0 < K env)%Z) by (simpl; lia).
  assert (Hshape : Z.of_nat (length (ctrs env)) = K env)
    by (simpl; now rewrite Hlen).
  split; [|split].
  - apply epsilon_greedy_total; try assumption; lia.
  - apply ucb1_total; try assumption; lia.
  - apply thompson_sampling_total; try assumption; lia.
Qed.

(** C2. In every run of [epsilon_greedy], after every step and for every arm
    a, count[a] is the number of pulls of a so far and, when count[a] > 0,
    value[a] is the arithmetic mean of the rewards observed on a so far. *)
Theorem eg_incremental_mean `{!RandomSourceLaws G}
    (env : AdBandit) (T : Z) (eps : Q) (n : nat) (g : G)
    (st : mean_state) (g' : G) (a : Z) :
  eg_steps env T eps n g = Ok (st, g') ->
  (0 <= a < K env)%Z ->
  let h := history n (rewards st) (chosen st) in
  let j := Z.to_nat a in
  nth j (counts st) 0 == inject_Z (Z.of_nat (pulls_of a h)) /\
  (0 < nth j (counts st) 0 ->
   nth j (values st) 0 ==
   reward_sum a h / inject_Z (Z.of_nat (pulls_of a h))).
Proof.
  intros E Ha h j.
  apply eg_steps_inv in E. destruct E as ((Hc & _) & _ & Hinv).
  destruct (Hinv j) as (Hcnt & Hval); [subst j; lia|].
  subst j. rewrite Z2Nat.id in Hcnt, Hval by lia. fold h in Hcnt, Hval.
  rewrite Qplus_0_l in Hcnt. split; [exact Hcnt|].
  intros Hpos. rewrite <- Hval, <- Hcnt. field. lra.
Qed.

(** C8, as amended. In every run of [ucb1], after every step and for every
    arm a, count[a] is one more than the number of pulls of a and, in exact
    arithmetic, value[a] is the sum of the rewards observed on a divided by
    (pulls of a + 1).  (In float64 the value is that quotient up to the
    rounding of each update only: see [ucb1_value_rounded].) *)
Theorem ucb1_phantom_mean (np_sqrt np_log : Q -> Q)
    (env : AdBandit) (T : Z) (n : nat) (g : G)
    (st : mean_state) (g' : G) (a : Z) :
  ucb_steps np_sqrt np_log env T n g = Ok (st, g') ->
  (0 <= a < K env)%Z ->
  let h := history n (rewards st) (chosen st) in
  let j := Z.to_nat a in
  nth j (counts st) 0 == inject_Z (Z.of_nat (pulls_of a h)) + 1 /\
  nth j (values st) 0 ==
  reward_sum a h / (inject_Z (Z.of_nat (pulls_of a h)) + 1).
Proof.
  intros E Ha h j.
  apply ucb_steps_inv in E. destruct E as ((Hc & _) & _ & Hinv).
  destruct (Hinv j) as (Hcnt & Hval); [subst j; lia|].
  subst j. rewrite Z2Nat.id in Hcnt, Hval by lia. fold h in Hcnt, Hval.
  assert (Hp : 0 <= inject_Z (Z.of_nat (pulls_of a h))).
  { change 0 with (inject_Z 0). rewrite <- Zle_Qle. lia. }
  split; [rewrite Hcnt; ring|].
  rewrite <- Hval, Hcnt. field. lra.
Qed.

(** C9. In every run of [thompson_sampling], after every step and for every
    arm a: alpha[a] >= 1, beta[a] >= 1, alpha[a] - 1 is the total reward
    collected on a so far and alpha[a] + beta[a] - 2 is the number of times a
    has been chosen so far. *)
Theorem thompson_pseudo_counts
    (env : AdBandit) (T : Z) (n : nat) (g : G)
    (st : beta_state) (g' : G) (a : Z) :
  ts_steps env T n g = Ok (st, g') ->
  (0 <= a < K env)%Z ->
  let h := history n (ts_rewards st) (ts_chosen st) in
  let j := Z.to_nat a in
  1 <= nth j (alpha st) 0 /\ 1 <= nth j (beta st) 0 /\
  nth j (alpha st) 0 - 1 == reward_sum a h /\
  nth j (alpha st) 0 + nth j (beta st) 0 - 2 ==
  inject_Z (Z.of_nat (pulls_of a h)).
Proof.
  intros E Ha h j.
  apply ts_steps_inv in E. destruct E as ((Hal & _) & _ & Hinv).
  specialize (Hinv j). cbv zeta in Hinv.
  subst j. rewrite Z2Nat.id in Hinv by lia. apply Hinv. lia.
Qed.

End Claims.

(** ** Further lemmas on traces and on the accounting *)

Lemma Forall_firstn {A} (P : A -> Prop) t (l : list A) :
  Forall P l -> Forall P (firstn t l).
Proof.
  intros Hl. revert t. induction Hl as [|x l Hx Hl IH]; intros [|t]; simpl;
    auto.
Qed.

Lemma history_chosen_Forall (P : Z -> Prop) t rs cs :
  Forall P cs -> Forall (fun rc => P (snd rc)) (history t rs cs).
Proof.
  intros Hcs. apply Forall_forall. intros [r c] Hin. simpl.
  unfold history in Hin. apply in_combine_r in Hin.
  pose proof (Forall_firstn t Hcs) as Hf. rewrite Forall_forall in Hf. auto.
Qed.

Lemma fold_max_spec a : forall m,
  let r := fold_left (fun m y => if Qltb m y then y else m) a m in
  (r = m \/ In r a) /\ m <= r /\ Forall (fun y => y <= r) a.
Proof.
  induction a as [|x a IH]; intros m; simpl.
  - repeat split; auto. apply Qle_refl.
  - specialize (IH (if Qltb m x then x else m)). cbv zeta in IH.
    destruct IH as (Hin & Hle & Hall).
    destruct (Qltb m x) eqn:Emx.
    + apply Qltb_lt in Emx. repeat split.
      * destruct Hin as [-> | Hin]; auto.
      * lra.
      * constructor; assumption.
    + apply Qltb_ge in Emx. repeat split.
      * destruct Hin as [-> | Hin]; auto.
      * assumption.
      * constructor; [lra|assumption].
Qed.

(** [np.max] returns an element of the array that bounds all the others. *)
Lemma np_max_spec a optimal :
  np_max a = Ok optimal -> In optimal a /\ Forall (fun p => p <= optimal) a.
Proof.
  destruct a as [|x a]; [discriminate|]. simpl. intros E. inversion E as [E'].
  destruct (fold_max_spec a x) as (Hin & Hle & Hall). rewrite E' in *.
  split; [destruct Hin as [-> | Hin]; auto|]. constructor; assumption.
Qed.

(** The last entries of the two cumulative series of one run. *)
Lemma regret_last optimal rs n :
  length rs = S n ->
  nth n (np_cumsum (np_rsub optimal rs)) 0 ==
  inject_Z (Z.of_nat (S n)) * optimal - nth n (np_cumsum rs) 0.
Proof.
  intros Hlen.
  rewrite !np_cumsum_nth by (rewrite ?np_rsub_length; lia).
  rewrite <- Hlen at 1. rewrite <- (np_rsub_length optimal rs) at 1.
  rewrite firstn_all. rewrite <- Hlen at 2. rewrite firstn_all.
  rewrite total_np_rsub, Hlen. reflexivity.
Qed.

(** One step of the two cumulative series of one run. *)
Lemma regret_increment optimal rs t :
  (S t < length rs)%nat ->
  let regret := np_cumsum (np_rsub optimal rs) in
  let clicks := np_cumsum rs in
  nth (S t) regret 0 - nth t regret 0 ==
  optimal - (nth (S t) clicks 0 - nth t clicks 0).
Proof.
  intros Ht regret clicks. subst regret clicks.
  rewrite !np_cumsum_step by (rewrite ?np_rsub_length; lia).
  rewrite np_rsub_nth by lia. ring.
Qed.

Lemma np_setitem_length {A} (a : list A) i x a' :
  np_setitem a i x = Ok a' -> length a' = length a.
Proof.
  unfold np_setitem. intros E. apply rbind_Ok in E.
  destruct E as (j & _ & E). inversion E. apply list_set_length.
Qed.

Section TraceLength.

Context {G : Type} `{RandomSource G}.

Lemma observe_rewards_length env t st arm (g : G) st' g' :
  observe env t st arm g = Ok (st', g') ->
  length (rewards st') = length (rewards st).
Proof.
  unfold observe. intros E.
  apply bind_Ok in E. destruct E as (r & g1 & _ & E).
  apply bind_Ok in E. destruct E as (cv & g2 & _ & E).
  apply bind_Ok in E. destruct E as (rs' & g3 & Ers & E).
  apply bind_Ok in E. destruct E as (ch' & g4 & _ & E).
  apply ret_Ok in E. destruct E as (-> & _). simpl.
  apply lift_Ok in Ers. destruct Ers as (Ers & _).
  now apply np_setitem_length in Ers.
Qed.

Lemma epsilon_greedy_length env T eps (g : G) tr g' :
  epsilon_greedy env T eps g = Ok (tr, g') ->
  length (fst tr) = Z.to_nat T.
Proof.
  unfold epsilon_greedy, eg_steps. intros E.
  apply bind_Ok in E. destruct E as (st & g1 & E & Er).
  apply ret_Ok in Er. destruct Er as (-> & _). simpl.
  apply bind_Ok in E. destruct E as (st0 & g0 & E0 & E).
  apply lift_Ok in E0. destruct E0 as (E0 & ->).
  apply eg_init_inv in E0. destruct E0 as (_ & _ & ->).
  apply (for_range_invariant (eg_step env eps)
           (fun _ s => length (rewards s) = Z.to_nat T)) in E.
  - exact E.
  - intros t s g2 s' g2' HI Es. rewrite eg_step_observe in Es.
    apply bind_Ok in Es. destruct Es as (u & g3 & _ & Es).
    apply bind_Ok in Es. destruct Es as (arm & g4 & _ & Es).
    apply observe_rewards_length in Es. congruence.
  - simpl. apply repeat_length.
Qed.

Lemma ucb1_length np_sqrt np_log env T (g : G) tr g' :
  ucb1 np_sqrt np_log env T g = Ok (tr, g') ->
  length (fst tr) = Z.to_nat T.
Proof.
  unfold ucb1, ucb_steps. intros E.
  apply bind_Ok in E. destruct E as (st & g1 & E & Er).
  apply ret_Ok in Er. destruct Er as (-> & _). simpl.
  apply bind_Ok in E. destruct E as (st0 & g0 & E0 & E).
  apply lift_Ok in E0. destruct E0 as (E0 & ->).
  apply ucb_init_inv in E0. destruct E0 as (_ & _ & ->).
  apply (for_range_invariant (ucb_step np_sqrt np_log env)
           (fun _ s => length (rewards s) = Z.to_nat T)) in E.
  - exact E.
  - intros t s g2 s' g2' HI Es. rewrite ucb_step_observe in Es.
    apply bind_Ok in Es. destruct Es as (arm & g4 & _ & Es).
    apply observe_rewards_length in Es. congruence.
  - simpl. apply repeat_length.
Qed.

Lemma thompson_sampling_length env T (g : G) tr g' :
  thompson_sampling env T g = Ok (tr, g') ->
  length (fst tr) = Z.to_nat T.
Proof.
  unfold thompson_sampling. intros E.
  apply bind_Ok in E. destruct E as (st & g1 & E & Er).
  apply ret_Ok in Er. destruct Er as (-> & _). simpl.
  apply ts_steps_inv in E. now destruct E as ((_ & _ & Hr & _) & _).
Qed.

End TraceLength.

Section AccountingClaims.

Context {G : Type} `{RandomSource G}.
Variables np_sqrt np_log : Q -> Q.

(** What a completed [run_simulation] computed. *)
Lemma run_simulation_T_inv ads0 ctrs0 T (g : G) res g' :
  run_simulation_T np_sqrt np_log ads0 ctrs0 T g = Ok (res, g') ->
  exists eg_r ucb_r ts_r optimal,
    length eg_r = Z.to_nat T /\ length ucb_r = Z.to_nat T /\
    length ts_r = Z.to_nat T /\
    np_max ctrs0 = Ok optimal /\
    res_eg res = np_cumsum eg_r /\ res_ucb res = np_cumsum ucb_r /\
    res_ts res = np_cumsum ts_r /\
    reg_eg res = np_cumsum (np_rsub optimal eg_r) /\
    reg_ucb res = np_cumsum (np_rsub optimal ucb_r) /\
    reg_ts res = np_cumsum (np_rsub optimal ts_r).
Proof.
  unfold run_simulation_T. intros E.
  apply bind_Ok in E. destruct E as (eg & g1 & Eeg & E).
  apply bind_Ok in E. destruct E as (ucb & g2 & Eucb & E).
  apply bind_Ok in E. destruct E as (ts & g3 & Ets & E).
  apply bind_Ok in E. destruct E as (optimal & g4 & Eopt & E).
  apply ret_Ok in E. destruct E as (-> & _).
  apply lift_Ok in Eopt. destruct Eopt as (Eopt & _).
  apply epsilon_greedy_length in Eeg. apply ucb1_length in Eucb.
  apply thompson_sampling_length in Ets.
  exists (fst eg), (fst ucb), (fst ts), optimal. simpl.
  repeat split; assumption.
Qed.

(** C3, as amended. In exact arithmetic, for every run of each algorithm,
    the cumulative regret at step T is T times the optimal probability minus
    the cumulative reward at step T, the optimal probability being the
    largest true arm probability.  (In float64 the two sides agree up to
    rounding only: see [regret_identity_rounded].) *)
Theorem regret_identity (ads0 : list string) (ctrs0 : list Q) (T : Z)
    (g : G) (res : Results) (g' : G) :
  (1 <= T)%Z ->
  run_simulation_T np_sqrt np_log ads0 ctrs0 T g = Ok (res, g') ->
  let at_T (series : list Q) := nth (Z.to_nat T - 1) series 0 in
  exists optimal,
    np_max ctrs0 = Ok optimal /\
    In optimal ctrs0 /\ Forall (fun p => p <= optimal) ctrs0 /\
    at_T (reg_eg res) == inject_Z T * optimal - at_T (res_eg res) /\
    at_T (reg_ucb res) == inject_Z T * optimal - at_T (res_ucb res) /\
    at_T (reg_ts res) == inject_Z T * optimal - at_T (res_ts res).
Proof.
  intros HT E at_T. apply run_simulation_T_inv in E.
  destruct E as (eg_r & ucb_r & ts_r & optimal & Leg & Lucb & Lts & Eopt
                 & -> & -> & -> & -> & -> & ->).
  exists optimal. split; [exact Eopt|].
  destruct (np_max_spec _ Eopt) as (Hin & Hall).
  split; [exact Hin|]. split; [exact Hall|].
  subst at_T. cbv beta.
  destruct (Z.to_nat T) as [|n] eqn:En; [lia|].
  replace (inject_Z T) with (inject_Z (Z.of_nat (S n)))
    by (f_equal; lia).
  replace (S n - 1)%nat with n by lia.
  repeat split; apply regret_last; assumption.
Qed.

(** C5, as amended. In exact arithmetic, for every run of each algorithm and
    every step t < T - 1, regret[t+1] - regret[t] = optimal - reward[t+1],
    reward being the trace the algorithm returned; hence
    regret[t] <= regret[t+1] holds exactly when the reward observed at step
    t+1 is at most the optimal probability. *)
Theorem regret_step_exact (ads0 : list string) (ctrs0 : list Q) (T : Z)
    (g : G) (res : Results) (g' : G) (t : nat) :
  run_simulation_T np_sqrt np_log ads0 ctrs0 T g = Ok (res, g') ->
  (S t < Z.to_nat T)%nat ->
  let env := AdBandit_init ads0 ctrs0 in
  exists eg g1 ucb g2 ts g3 optimal,
    epsilon_greedy env T (1 # 10) g = Ok (eg, g1) /\
    ucb1 np_sqrt np_log env T g1 = Ok (ucb, g2) /\
    thompson_sampling env T g2 = Ok (ts, g3) /\
    np_max ctrs0 = Ok optimal /\
    forall reward regret,
      In (reward, regret)
         [(fst eg, reg_eg res); (fst ucb, reg_ucb res);
          (fst ts, reg_ts res)] ->
      nth (S t) regret 0 - nth t regret 0 == optimal - nth (S t) reward 0 /\
      (nth t regret 0 <= nth (S t) regret 0 <->
       nth (S t) reward 0 <= optimal).
Proof.
  intros E Ht env. unfold run_simulation_T in E. fold env in E.
  apply bind_Ok in E. destruct E as (eg & g1 & Eeg & E).
  apply bind_Ok in E. destruct E as (ucb & g2 & Eucb & E).
  apply bind_Ok in E. destruct E as (ts & g3 & Ets & E).
  apply bind_Ok in E. destruct E as (optimal & g4 & Eopt & E).
  apply ret_Ok in E. destruct E as (-> & _).
  apply lift_Ok in Eopt. destruct Eopt as (Eopt & _).
  exists eg, g1, ucb, g2, ts, g3, optimal.
  repeat (split; [assumption|]).
  pose proof (epsilon_greedy_length _ _ _ _ Eeg) as Leg.
  pose proof (ucb1_length _ _ _ _ _ Eucb) as Lucb.
  pose proof (thompson_sampling_length _ _ _ Ets) as Lts.
  intros reward regret Hin. cbn [reg_eg reg_ucb reg_ts] in Hin.
  assert (Hstep : (S t < length reward)%nat /\
                  regret = np_cumsum (np_rsub optimal reward)).
  { destruct Hin as [E | [E | [E | []]]]; inversion E; subst reward regret;
      split; auto; lia. }
  destruct Hstep as (Hlen & ->).
  rewrite np_cumsum_step by (rewrite np_rsub_length; exact Hlen).
  rewrite np_rsub_nth by exact Hlen.
  split; [ring|]. split; intros; lra.
Qed.

(** C7. For every horizon T >= 1, [ucb1] on an environment with exactly one
    arm selects arm 0 at each of the T steps and leaves count[0] = T + 1. *)
Theorem ucb1_single_arm (ads0 : list string) (ctrs0 : list Q) (T : Z)
    (g : G) :
  length ads0 = 1%nat -> length ctrs0 = 1%nat -> (1 <= T)%Z ->
  let env := AdBandit_init ads0 ctrs0 in
  exists st g',
    ucb_steps np_sqrt np_log env T (Z.to_nat T) g = Ok (st, g') /\
    ucb1 np_sqrt np_log env T g = Ok ((rewards st, chosen st), g') /\
    Z.of_nat (length (chosen st)) = T /\
    Forall (fun c => c = 0%Z) (chosen st) /\
    nth 0 (counts st) 0 == inject_Z (T + 1).
Proof.
  intros Hads Hctrs HT env.
  assert (HK : K env = 1%Z) by (simpl; now rewrite Hads).
  destruct (@ucb_steps_total _ _ env) with
    (np_sqrt := np_sqrt) (np_log := np_log) (T := T) (n := Z.to_nat T) (g := g)
    as (st & g' & E & Hinv); try lia.
  { simpl. rewrite Hads, Hctrs. reflexivity. }
  exists st, g'. split; [exact E|].
  split; [unfold ucb1, bind; now rewrite E|].
  destruct Hinv as ((_ & _ & Hr & Hc) & _ & Hcs).
  assert (Hzero : Forall (fun c => c = 0%Z) (chosen st)).
  { eapply Forall_impl; [|exact Hcs]. unfold arm_ok. intros c. lia. }
  split; [lia|]. split; [exact Hzero|].
  apply ucb_steps_inv in E. destruct E as ((Hlc & _) & _ & Hmean).
  destruct (Hmean 0%nat) as (Hcnt & _); [lia|].
  rewrite Hcnt. simpl Z.of_nat.
  rewrite (pulls_of_all (a := 0%Z))
    by (apply (history_chosen_Forall (P := fun c => c = 0%Z)); exact Hzero).
  rewrite history_length by lia.
  rewrite Z2Nat.id, inject_Z_plus by lia. ring.
Qed.

End AccountingClaims.

(** ** Configurations the code does not validate *)

Section Configuration.

Context {G : Type} `{RandomSource G}.
Variables np_sqrt np_log : Q -> Q.

Lemma np_full_negative {A} (x : A) n :
  (n < 0)%Z -> np_full x n = Raise ValueError_negative_dimensions.
Proof.
  intros Hn. unfold np_full. destruct (Z.ltb_spec n 0); [reflexivity|lia].
Qed.

Lemma negative_horizon_rejected env T eps n (g : G) :
  (0 <= K env)%Z -> (T < 0)%Z ->
  eg_steps env T eps n g = Raise ValueError_negative_dimensions /\
  ucb_steps np_sqrt np_log env T n g = Raise ValueError_negative_dimensions /\
  ts_steps env T n g = Raise ValueError_negative_dimensions.
Proof.
  intros HK HT.
  unfold eg_steps, ucb_steps, ts_steps, bind, lift,
    eg_init, ucb_init, ts_init, np_zeros, np_ones.
  rewrite !(@np_full_Ok Q 0 (K env) HK), !(@np_full_Ok Q 1 (K env) HK).
  simpl. rewrite !(@np_full_negative Q 0 T HT). simpl. auto.
Qed.

Lemma first_step_raises {St} (body : nat -> St -> M G St) n s g e :
  body 0%nat s g = Raise e -> for_range body 0 (S n) s g = Raise e.
Proof. intros E. simpl. unfold bind. now rewrite E. Qed.

Lemma no_arm_selection_raises `{!RandomSourceLaws G} ctrs0 T eps (g : G) :
  (1 <= T)%Z ->
  let env := AdBandit_init [] ctrs0 in
  (exists e,
     (e = ValueError_randint_bounds \/ e = ValueError_argmax_empty) /\
     eg_steps env T eps 1 g = Raise e /\
     epsilon_greedy env T eps g = Raise e) /\
  ucb_steps np_sqrt np_log env T 1 g = Raise ValueError_argmax_empty /\
  ucb1 np_sqrt np_log env T g = Raise ValueError_argmax_empty /\
  ts_steps env T 1 g = Raise ValueError_argmax_empty /\
  thompson_sampling env T g = Raise ValueError_argmax_empty.
Proof.
  intros HT env.
  destruct (Z.to_nat T) as [|n] eqn:En; [lia|].
  assert (HT0 : (T <? 0)%Z = false) by (apply Z.ltb_ge; lia).
  assert (ts_first :
            ts_steps env T 1 g = Raise ValueError_argmax_empty /\
            thompson_sampling env T g = Raise ValueError_argmax_empty).
  { pose (s0 := {| alpha := []; beta := [];
                   ts_rewards := repeat 0 (Z.to_nat T);
                   ts_chosen := repeat 0%Z (Z.to_nat T) |}).
    assert (Einit : ts_init env T = Ok s0).
    { unfold ts_init, np_ones, np_zeros, np_zeros_int, np_full. rewrite HT0.
      reflexivity. }
    assert (E : ts_step env 0 s0 g = Raise ValueError_argmax_empty).
    { unfold ts_step, bind, np_random_beta. simpl.
      pose proof (beta_shape [] [] g eq_refl) as Hth.
      destruct (random_beta [] [] g) as [theta g1]. simpl in Hth.
      destruct theta; [reflexivity|discriminate]. }
    split.
    - unfold ts_steps, bind, lift. rewrite Einit. cbv beta iota.
      now apply first_step_raises.
    - unfold thompson_sampling, ts_steps, bind, lift. rewrite Einit, En.
      cbv beta iota. now rewrite (first_step_raises _ _ _ _ E). }
  split; [|split; [|split; [|split]]].
  - assert (Hstep : forall s, values s = [] -> exists e,
              (e = ValueError_randint_bounds \/ e = ValueError_argmax_empty) /\
              eg_step env eps 0 s g = Raise e).
    { intros s Hs. unfold eg_step, bind, np_random_rand.
      destruct (random_rand g) as [u g1]. destruct (Qltb u eps).
      - exists ValueError_randint_bounds. split; [auto|reflexivity].
      - exists ValueError_argmax_empty. rewrite Hs. split; [auto|reflexivity]. }
    pose (s0 := {| counts := []; values := [];
                   rewards := repeat 0 (Z.to_nat T);
                   chosen := repeat 0%Z (Z.to_nat T) |}).
    assert (Einit : eg_init env T = Ok s0).
    { unfold eg_init, np_zeros, np_zeros_int, np_full. rewrite HT0.
      reflexivity. }
    destruct (Hstep s0 eq_refl) as (e & He & E).
    exists e. split; [exact He|]. split.
    + unfold eg_steps, bind, lift. rewrite Einit. cbv beta iota.
      now apply first_step_raises.
    + unfold epsilon_greedy, eg_steps, bind, lift. rewrite Einit, En.
      cbv beta iota. now rewrite (first_step_raises _ _ _ _ E).
  - unfold ucb_steps, bind, lift, ucb_init, np_ones, np_zeros, np_zeros_int,
      np_full. rewrite HT0. reflexivity.
  - unfold ucb1, ucb_steps, bind, lift, ucb_init, np_ones, np_zeros,
      np_zeros_int, np_full. rewrite En, HT0. reflexivity.
  - apply ts_first.
  - apply ts_first.
Qed.

End Configuration.

Section ConfigurationClaims.

Context {G : Type} `{RandomSource G}.
Variables np_sqrt np_log : Q -> Q.

Lemma zero_horizon_empty env eps (g : G) :
  (0 <= K env)%Z ->
  epsilon_greedy env 0 eps g = Ok (([], []), g) /\
  ucb1 np_sqrt np_log env 0 g = Ok (([], []), g) /\
  thompson_sampling env 0 g = Ok (([], []), g).
Proof.
  intros HK.
  unfold epsilon_greedy, ucb1, thompson_sampling, eg_steps, ucb_steps,
    ts_steps, bind, lift, eg_init, ucb_init, ts_init, np_zeros, np_ones.
  rewrite !(@np_full_Ok Q 0 (K env) HK), !(@np_full_Ok Q 1 (K env) HK).
  simpl. auto.
Qed.

(** C4, as amended. Nothing is validated at construction or at entry.  A
    negative horizon is rejected by the allocation of the trace arrays,
    before any step; a zero horizon returns empty traces; any epsilon and any
    arm probabilities are accepted and, with K >= 1 and T >= 1, every run
    completes its T steps; with K = 0 and T >= 1 the arm selection of the
    first iteration raises. *)
Theorem configuration_unchecked `{!RandomSourceLaws G}
    (ads0 : list string) (ctrs0 : list Q) (T : Z) (eps : Q) (g : G) :
  let env := AdBandit_init ads0 ctrs0 in
  ((T < 0)%Z ->
     eg_steps env T eps 0 g = Raise ValueError_negative_dimensions /\
     ucb_steps np_sqrt np_log env T 0 g =
       Raise ValueError_negative_dimensions /\
     ts_steps env T 0 g = Raise ValueError_negative_dimensions) /\
  (T = 0%Z ->
     epsilon_greedy env T eps g = Ok (([], []), g) /\
     ucb1 np_sqrt np_log env T g = Ok (([], []), g) /\
     thompson_sampling env T g = Ok (([], []), g)) /\
  (length ctrs0 = length ads0 -> ads0 <> [] -> (1 <= T)%Z ->
     (exists tr g', epsilon_greedy env T eps g = Ok (tr, g') /\
                    trace_ok (K env) T tr) /\
     (exists tr g', ucb1 np_sqrt np_log env T g = Ok (tr, g') /\
                    trace_ok (K env) T tr) /\
     (exists tr g', thompson_sampling env T g = Ok (tr, g') /\
                    trace_ok (K env) T tr)) /\
  (ads0 = [] -> (1 <= T)%Z ->
     (exists e,
        (e = ValueError_randint_bounds \/ e = ValueError_argmax_empty) /\
        eg_steps env T eps 1 g = Raise e /\
        epsilon_greedy env T eps g = Raise e) /\
     ucb_steps np_sqrt np_log env T 1 g = Raise ValueError_argmax_empty /\
     ucb1 np_sqrt np_log env T g = Raise ValueError_argmax_empty /\
     ts_steps env T 1 g = Raise ValueError_argmax_empty /\
     thompson_sampling env T g = Raise ValueError_argmax_empty).
Proof.
  intros env.
  assert (HK : (0 <= K env)%Z) by (simpl; lia).
  split; [|split; [|split]].
  - intros HT. now apply negative_horizon_rejected.
  - intros ->. now apply zero_horizon_empty.
  - intros Hlen Hne HT.
    assert (Harms : (0 < K env)%Z).
    { simpl. destruct ads0; [congruence|]. simpl length. lia. }
    assert (Hshape : Z.of_nat (length (ctrs env)) = K env)
      by (simpl; now rewrite Hlen).
    split; [|split].
    + apply epsilon_greedy_total; try assumption; lia.
    + apply ucb1_total; try assumption; lia.
    + apply thompson_sampling_total; try assumption; lia.
  - intros -> HT. now apply no_arm_selection_raises.
Qed.

(** C6, as amended. [pull] raises IndexError for every arm index outside
    [-n, n), n being the number of probabilities (K in a well-formed
    environment); an index in [-n, 0) is not rejected: it is served as arm
    index + n. *)
Theorem pull_index_semantics (env : AdBandit) (arm : Z) (g : G) :
  let n := Z.of_nat (length (ctrs env)) in
  ((arm < - n \/ n <= arm)%Z ->
     pull env arm g = Raise IndexError_out_of_bounds) /\
  ((- n <= arm < 0)%Z ->
     pull env arm g = pull env (arm + n) g /\
     exists r g', (r = 0 \/ r = 1)%Z /\ pull env arm g = Ok (r, g')).
Proof.
  intros n. split.
  - intros Hout. unfold pull, bind, np_random_rand, lift, np_getitem,
      norm_index. fold n.
    destruct (random_rand g) as [u g1].
    destruct (Z.ltb_spec arm (- n)); destruct (Z.leb_spec n arm);
      try reflexivity. lia.
  - intros Hneg.
    assert (E : np_getitem (ctrs env) arm = np_getitem (ctrs env) (arm + n)).
    { unfold np_getitem, norm_index. fold n.
      destruct (Z.ltb_spec arm (- n)); [lia|].
      destruct (Z.leb_spec n arm); [lia|].
      destruct (Z.ltb_spec (arm + n) (- n)); [lia|].
      destruct (Z.leb_spec n (arm + n)); [lia|].
      destruct (Z.ltb_spec arm 0); [|lia].
      destruct (Z.ltb_spec (arm + n) 0); [lia|]. reflexivity. }
    assert (Epull : pull env arm g = pull env (arm + n) g).
    { unfold pull, bind. now rewrite E. }
    split; [exact Epull|]. rewrite Epull.
    rewrite pull_Ok by (subst n; lia).
    eexists. eexists. split; [apply drawn_reward_01|reflexivity].
Qed.

(** C10. For every in-range arm, [pull] returns 0 when the arm's true
    probability is 0 and returns 1 when it is 1. *)
Theorem pull_boundary_probabilities `{!RandomSourceLaws G}
    (env : AdBandit) (arm : Z) (g : G) :
  (0 <= arm < Z.of_nat (length (ctrs env)))%Z ->
  let p := nth (Z.to_nat arm) (ctrs env) 0 in
  (p == 0 -> exists g', pull env arm g = Ok (0%Z, g')) /\
  (p == 1 -> exists g', pull env arm g = Ok (1%Z, g')).
Proof.
  intros Harm p. rewrite pull_Ok by assumption. fold p.
  destruct (rand_unit g) as (Hu0 & Hu1). unfold drawn_reward.
  split; intros Hp; eexists.
  - destruct (Qltb (fst (random_rand g)) p) eqn:E; [|reflexivity].
    apply Qltb_lt in E. lra.
  - destruct (Qltb (fst (random_rand g)) p) eqn:E; [reflexivity|].
    apply Qltb_ge in E. lra.
Qed.

End ConfigurationClaims.

(* ================================================================== *)
(** * Concrete runs *)

Import CounterSource.

(** C5 fails as stated: with optimal probability 3/4, the cumulative regret
    of [epsilon_greedy] goes from -1/4 at step 0 to -1/2 at step 1, the
    reward observed at step 1 being 1. *)
Lemma regret_not_monotone :
  exists res g',
    run_simulation_T approx_sqrt approx_log demo_ads demo_ctrs 3 0%Z =
      Ok (res, g') /\
    ~ (nth 0 (reg_eg res) 0 <= nth 1 (reg_eg res) 0).
Proof.
  eexists. eexists. split; [vm_compute; reflexivity|].
  vm_compute. intros Hle. apply Hle. reflexivity.
Qed.

(** C4 fails as stated: an epsilon of 3/2 and an arm probability of 3/2 are
    accepted and the run completes both of its steps; a horizon of 0 returns
    normally. *)
Lemma malformed_configuration_runs :
  let env := AdBandit_init ["ad A"%string] [3 # 2] in
  epsilon_greedy env 2 (3 # 2) 0%Z = Ok (([1; 1], [0; 0]%Z), 6%Z) /\
  epsilon_greedy env 0 (3 # 2) 0%Z = Ok (([], []), 0%Z).
Proof. split; vm_compute; reflexivity. Qed.

(** C6 fails as stated: index -1 on two arms is served as the last arm. *)
Lemma pull_negative_index_returns :
  pull (AdBandit_init demo_ads [0; 1]) (-1) 0%Z = Ok (1%Z, 1%Z).
Proof. vm_compute. reflexivity. Qed.

(** [traces_well_formed] on the two-arm dataset, horizon 3. *)
Lemma traces_well_formed_witness :
  RandomSourceLaws Z /\
  length demo_ctrs = length demo_ads /\
  (1 <= Z.of_nat (length demo_ads))%Z /\ (1 <= 3)%Z /\
  (exists tr g', epsilon_greedy demo_env 3 (1 # 10) 0%Z = Ok (tr, g') /\
                 trace_ok (K demo_env) 3 tr) /\
  (exists tr g', ucb1 approx_sqrt approx_log demo_env 3 0%Z = Ok (tr, g') /\
                 trace_ok (K demo_env) 3 tr) /\
  (exists tr g', thompson_sampling demo_env 3 0%Z = Ok (tr, g') /\
                 trace_ok (K demo_env) 3 tr).
Proof.
  split; [exact counter_source_laws|].
  split; [reflexivity|]. split; [simpl; lia|]. split; [lia|].
  apply (@traces_well_formed Z _ counter_source_laws approx_sqrt approx_log
           demo_ads demo_ctrs 3 (1 # 10) 0%Z);
    [reflexivity | simpl; lia | lia].
Defined.

(** [eg_incremental_mean] after three steps on the two-arm dataset, arm 1. *)
Lemma eg_incremental_mean_witness :
  exists st g',
    RandomSourceLaws Z /\
    eg_steps demo_env 3 (1 # 10) 3 0%Z = Ok (st, g') /\
    (0 <= 1 < K demo_env)%Z /\
    nth 1 (counts st) 0 ==
      inject_Z (Z.of_nat (pulls_of 1 (history 3 (rewards st) (chosen st)))) /\
    (0 < nth 1 (counts st) 0 ->
     nth 1 (values st) 0 ==
       reward_sum 1 (history 3 (rewards st) (chosen st)) /
       inject_Z (Z.of_nat (pulls_of 1 (history 3 (rewards st) (chosen st))))).
Proof.
  eexists. eexists. split; [exact counter_source_laws|].
  split; [vm_compute; reflexivity|]. split; [simpl; lia|].
  eapply (@eg_incremental_mean Z _ counter_source_laws demo_env 3 (1 # 10) 3
           0%Z _ _ 1%Z); [vm_compute; reflexivity | simpl; lia].
Defined.

(** [ucb1_phantom_mean] after three steps on the two-arm dataset, arm 0. *)
Lemma ucb1_phantom_mean_witness :
  exists st g',
    ucb_steps approx_sqrt approx_log demo_env 3 3 0%Z = Ok (st, g') /\
    (0 <= 0 < K demo_env)%Z /\
    nth 0 (counts st) 0 ==
      inject_Z (Z.of_nat (pulls_of 0 (history 3 (rewards st) (chosen st))))
      + 1 /\
    nth 0 (values st) 0 ==
      reward_sum 0 (history 3 (rewards st) (chosen st)) /
      (inject_Z (Z.of_nat (pulls_of 0 (history 3 (rewards st) (chosen st))))
       + 1).
Proof.
  eexists. eexists. split; [vm_compute; reflexivity|]. split; [simpl; lia|].
  eapply (@ucb1_phantom_mean Z _ approx_sqrt approx_log demo_env 3 3 0%Z
           _ _ 0%Z); [vm_compute; reflexivity | simpl; lia].
Defined.

(** [thompson_pseudo_counts] after three steps on the two-arm dataset,
    arm 0. *)
Lemma thompson_pseudo_counts_witness :
  exists st g',
    ts_steps demo_env 3 3 0%Z = Ok (st, g') /\
    (0 <= 0 < K demo_env)%Z /\
    1 <= nth 0 (alpha st) 0 /\ 1 <= nth 0 (beta st) 0 /\
    nth 0 (alpha st) 0 - 1 ==
      reward_sum 0 (history 3 (ts_rewards st) (ts_chosen st)) /\
    nth 0 (alpha st) 0 + nth 0 (beta st) 0 - 2 ==
      inject_Z
        (Z.of_nat (pulls_of 0 (history 3 (ts_rewards st) (ts_chosen st)))).
Proof.
  eexists. eexists. split; [vm_compute; reflexivity|]. split; [simpl; lia|].
  eapply (@thompson_pseudo_counts Z _ demo_env 3 3 0%Z _ _ 0%Z);
    [vm_compute; reflexivity | simpl; lia].
Defined.

(** [regret_identity] on the two-arm dataset, horizon 3. *)
Lemma regret_identity_witness :
  exists res g',
    (1 <= 3)%Z /\
    run_simulation_T approx_sqrt approx_log demo_ads demo_ctrs 3 0%Z =
      Ok (res, g') /\
    exists optimal,
      np_max demo_ctrs = Ok optimal /\
      In optimal demo_ctrs /\ Forall (fun p => p <= optimal) demo_ctrs /\
      nth 2 (reg_eg res) 0 == 3 * optimal - nth 2 (res_eg res) 0 /\
      nth 2 (reg_ucb res) 0 == 3 * optimal - nth 2 (res_ucb res) 0 /\
      nth 2 (reg_ts res) 0 == 3 * optimal - nth 2 (res_ts res) 0.
Proof.
  eexists. eexists. split; [lia|]. split; [vm_compute; reflexivity|].
  eapply (@regret_identity Z _ approx_sqrt approx_log demo_ads demo_ctrs 3
            0%Z); [lia | vm_compute; reflexivity].
Defined.

(** [ucb1_single_arm] on a one-arm dataset, horizon 4. *)
Lemma ucb1_single_arm_witness :
  length ["ad A"%string] = 1%nat /\ length [1 # 2] = 1%nat /\ (1 <= 4)%Z /\
  exists st g',
    ucb_steps approx_sqrt approx_log
      (AdBandit_init ["ad A"%string] [1 # 2]) 4 (Z.to_nat 4) 0%Z =
      Ok (st, g') /\
    ucb1 approx_sqrt approx_log (AdBandit_init ["ad A"%string] [1 # 2]) 4 0%Z =
      Ok ((rewards st, chosen st), g') /\
    Z.of_nat (length (chosen st)) = 4%Z /\
    Forall (fun c => c = 0%Z) (chosen st) /\
    nth 0 (counts st) 0 == inject_Z (4 + 1).
Proof.
  split; [reflexivity|]. split; [reflexivity|]. split; [lia|].
  apply (@ucb1_single_arm Z _ approx_sqrt approx_log ["ad A"%string] [1 # 2]
           4 0%Z); [reflexivity | reflexivity | lia].
Defined.

(** [configuration_unchecked] on one input for each of its four cases. *)
Lemma configuration_unchecked_witness :
  RandomSourceLaws Z /\
  (* a negative horizon *)
  ((-1 < 0)%Z /\
   eg_steps demo_env (-1) (1 # 10) 0 0%Z =
     Raise ValueError_negative_dimensions) /\
  (* a zero horizon *)
  (0%Z = 0%Z /\
   epsilon_greedy demo_env 0 (1 # 10) 0%Z = Ok (([], []), 0%Z)) /\
  (* an epsilon of 3/2 *)
  (length demo_ctrs = length demo_ads /\ demo_ads <> [] /\ (1 <= 2)%Z /\
   exists tr g', epsilon_greedy demo_env 2 (3 # 2) 0%Z = Ok (tr, g') /\
                 trace_ok (K demo_env) 2 tr) /\
  (* no arm *)
  ((@nil string) = [] /\ (1 <= 2)%Z /\
   thompson_sampling (AdBandit_init [] []) 2 0%Z =
     Raise ValueError_argmax_empty).
Proof.
  split; [exact counter_source_laws|].
  split; [|split; [|split]].
  - split; [lia|].
    apply (proj1 (@configuration_unchecked Z _ approx_sqrt approx_log
                    counter_source_laws demo_ads demo_ctrs (-1) (1 # 10) 0%Z)).
    lia.
  - split; [reflexivity|].
    apply (proj1 (proj2 (@configuration_unchecked Z _ approx_sqrt approx_log
                    counter_source_laws demo_ads demo_ctrs 0 (1 # 10) 0%Z))).
    reflexivity.
  - split; [reflexivity|]. split; [discriminate|]. split; [lia|].
    apply (proj1 (proj2 (proj2 (@configuration_unchecked Z _ approx_sqrt
                    approx_log counter_source_laws demo_ads demo_ctrs 2
                    (3 # 2) 0%Z))));
      [reflexivity | discriminate | lia].
  - split; [reflexivity|]. split; [lia|].
    apply (proj2 (proj2 (proj2 (@configuration_unchecked Z _ approx_sqrt
                    approx_log counter_source_laws [] [] 2
                    (1 # 10) 0%Z))));
      [reflexivity | lia].
Defined.

(** [pull_index_semantics] at index 2 and at index -1 of two arms. *)
Lemma pull_index_semantics_witness :
  ((2 <= 2)%Z /\
   pull demo_env 2 0%Z = Raise IndexError_out_of_bounds) /\
  ((-2 <= -1 < 0)%Z /\
   pull demo_env (-1) 0%Z = pull demo_env (-1 + 2) 0%Z).
Proof.
  split.
  - split; [lia|].
    apply (proj1 (@pull_index_semantics Z _ demo_env 2 0%Z)).
    right. simpl. lia.
  - split; [lia|].
    apply (proj2 (@pull_index_semantics Z _ demo_env (-1) 0%Z)).
    simpl. lia.
Defined.

(** [pull_boundary_probabilities] on an arm of probability 1. *)
Lemma pull_boundary_probabilities_witness :
  RandomSourceLaws Z /\
  (0 <= 1 < Z.of_nat (length [0; 1]))%Z /\
  nth (Z.to_nat 1) [0; 1] 0 == 1 /\
  exists g', pull (AdBandit_init demo_ads [0; 1]) 1 5%Z = Ok (1%Z, g').
Proof.
  split; [exact counter_source_laws|]. split; [simpl; lia|].
  split; [reflexivity|].
  apply (proj2 (@pull_boundary_probabilities Z _ counter_source_laws
                  (AdBandit_init demo_ads [0; 1]) 1 5%Z ltac:(simpl; lia))).
  reflexivity.
Defined.

(* ================================================================== *)
(** * Further properties of the code *)

(** ** Loops, arrays and sums *)

Lemma for_range_split {G St} (body : nat -> St -> M G St) n k :
  forall start s g,
    for_range body start (n + k) s g =
    bind (for_range body start n s) (for_range body (start + n) k) g.
Proof.
  induction n as [|n IH]; intros start s g; simpl.
  - unfold bind, ret. now rewrite Nat.add_0_r.
  - unfold bind. destruct (body start s g) as [[s1 g1]|e]; [|reflexivity].
    rewrite IH. unfold bind. now rewrite Nat.add_succ_r.
Qed.

Lemma firstn_list_set_later {A} (a : list A) t j x :
  (t <= j)%nat -> firstn t (list_set a j x) = firstn t a.
Proof.
  revert t j. induction a as [|y a IH]; intros [|t] [|j] Hj; simpl;
    try lia; auto.
  f_equal. apply IH. lia.
Qed.

Lemma np_setitem_inv_any {A} (a : list A) i x a' :
  np_setitem a i x = Ok a' -> exists j, a' = list_set a j x.
Proof.
  unfold np_setitem. intros E. apply rbind_Ok in E.
  destruct E as (j & _ & E). exists j. now inversion E.
Qed.

Lemma total_list_set a : forall j x,
  (j < length a)%nat -> total (list_set a j x) == total a - nth j a 0 + x.
Proof.
  induction a as [|y a IH]; intros [|j] x Hj; simpl in Hj; try lia.
  - unfold total. simpl. ring.
  - change (total (list_set (y :: a) (S j) x))
      with (y + total (list_set a j x)).
    change (total (y :: a)) with (y + total a).
    rewrite IH by lia. simpl. ring.
Qed.

Lemma total_repeat x n :
  total (repeat x n) == inject_Z (Z.of_nat n) * x.
Proof.
  induction n as [|n IH].
  - unfold total. simpl. ring.
  - change (total (repeat x (S n))) with (x + total (repeat x n)).
    rewrite IH, Nat2Z.inj_succ. unfold Z.succ. rewrite inject_Z_plus.
    ring.
Qed.

Lemma total_snoc a x : total (a ++ [x]) == total a + x.
Proof.
  induction a as [|y a IH].
  - unfold total. simpl. ring.
  - change (total ((y :: a) ++ [x])) with (y + total (a ++ [x])).
    change (total (y :: a)) with (y + total a). rewrite IH. ring.
Qed.

Lemma combine_repeat {A B} (x : A) (y : B) n :
  combine (repeat x n) (repeat y n) = repeat (x, y) n.
Proof. induction n as [|n IH]; simpl; [reflexivity|now rewrite IH]. Qed.

(** Among equal entries [np.argmax] returns the first. *)
Lemma argmax_from_constant x n : forall best_i i,
  argmax_from best_i x i (repeat x n) = best_i.
Proof.
  induction n as [|n IH]; intros best_i i; simpl; [reflexivity|].
  assert (E : Qltb x x = false) by (apply Qltb_ge, Qle_refl).
  rewrite E. apply IH.
Qed.

Lemma np_argmax_constant x n :
  np_argmax (repeat x (S n)) = Ok 0%Z.
Proof. simpl. now rewrite argmax_from_constant. Qed.

(** An average of two numbers of [0, 1] stays in [0, 1]. *)
Lemma incremental_mean_unit v r c :
  0 <= v <= 1 -> 0 <= r <= 1 -> 1 <= c ->
  0 <= v + (r - v) / c <= 1.
Proof.
  intros Hv Hr Hc.
  assert (Hc0 : 0 < c) by lra.
  assert (E : v + (r - v) / c == (v * (c - 1) + r) / c) by (field; lra).
  rewrite E. split.
  - apply Qle_shift_div_l; [assumption|]. nra.
  - apply Qle_shift_div_r; [assumption|]. nra.
Qed.

(** ** More on the runs of epsilon_greedy and ucb1 *)

Section MeanExtras.

Context {G : Type} `{RandomSource G}.

Open Scope py_scope.

(** Any property kept by every completed step holds after every completed
    prefix of a run. *)
Lemma eg_steps_induction `{!RandomSourceLaws G} (I : nat -> mean_state -> Prop)
      env T eps n (g : G) st g' :
  (forall t s s', I t s -> mean_step env t s s' -> I (S t) s') ->
  I 0%nat {| counts := repeat 0 (Z.to_nat (K env));
             values := repeat 0 (Z.to_nat (K env));
             rewards := repeat 0 (Z.to_nat T);
             chosen := repeat 0%Z (Z.to_nat T) |} ->
  eg_steps env T eps n g = Ok (st, g') -> I n st.
Proof.
  intros Hstep Hinit E. unfold eg_steps in E.
  apply bind_Ok in E. destruct E as (st0 & g0 & E0 & E).
  apply lift_Ok in E0. destruct E0 as (E0 & ->).
  apply eg_init_inv in E0. destruct E0 as (_ & _ & ->).
  apply (for_range_invariant (eg_step env eps) I) in E; [exact E| |exact Hinit].
  intros t s g1 s' g1' HI Es. apply (Hstep t s s' HI).
  eapply eg_step_inv; eauto.
Qed.

Lemma ucb_steps_induction np_sqrt np_log (I : nat -> mean_state -> Prop)
      env T n (g : G) st g' :
  (forall t s s', I t s -> mean_step env t s s' -> I (S t) s') ->
  I 0%nat {| counts := repeat 1 (Z.to_nat (K env));
             values := repeat 0 (Z.to_nat (K env));
             rewards := repeat 0 (Z.to_nat T);
             chosen := repeat 0%Z (Z.to_nat T) |} ->
  ucb_steps np_sqrt np_log env T n g = Ok (st, g') -> I n st.
Proof.
  intros Hstep Hinit E. unfold ucb_steps in E.
  apply bind_Ok in E. destruct E as (st0 & g0 & E0 & E).
  apply lift_Ok in E0. destruct E0 as (E0 & ->).
  apply ucb_init_inv in E0. destruct E0 as (_ & _ & ->).
  apply (for_range_invariant (ucb_step np_sqrt np_log env) I) in E;
    [exact E| |exact Hinit].
  intros t s g1 s' g1' HI Es. apply (Hstep t s s' HI).
  eapply ucb_step_inv; eauto.
Qed.

(** Counts stay non-negative and value estimates stay in [0, 1]. *)
Lemma estimates_step env t st st' :
  mean_step env t st st' ->
  Forall (Qle 0) (counts st) /\ Forall (fun v => 0 <= v <= 1) (values st) ->
  Forall (Qle 0) (counts st') /\ Forall (fun v => 0 <= v <= 1) (values st').
Proof.
  intros (arm & r & Harm & Hr & Hc & Hv & Hrs & Hch & ->) (Hcs & Hvs).
  pose proof (proj1 (Forall_nth _ _) Hcs _ 0 Hc) as Hcj.
  pose proof (proj1 (Forall_nth _ _) Hvs _ 0 Hv) as Hvj.
  cbv beta in Hcj, Hvj. unfold observed. cbn [counts values].
  split; apply Forall_list_set; try assumption.
  - lra.
  - apply incremental_mean_unit; [assumption| |lra].
    destruct Hr as [-> | ->]; [change (inject_Z 0) with 0
                              |change (inject_Z 1) with 1]; lra.
Qed.

Lemma estimates_init c0 nK :
  0 <= c0 ->
  Forall (Qle 0) (repeat c0 nK) /\
  Forall (fun v => 0 <= v <= 1) (repeat 0 nK).
Proof.
  intros Hc0. split; apply Forall_forall; intros x Hx;
    apply repeat_spec in Hx; subst x; lra.
Qed.

(** Each completed step adds one to the sum of the counts. *)
Lemma count_total_step env t st st' :
  mean_step env t st st' ->
  total (counts st') == total (counts st) + 1.
Proof.
  intros (arm & r & Harm & Hr & Hc & Hv & Hrs & Hch & ->).
  unfold observed. cbn [counts]. rewrite total_list_set by assumption. ring.
Qed.

(** A completed step leaves the entries of the trace before it as they
    were. *)
Lemma trace_prefix_step env n t st st' :
  (n <= t)%nat -> mean_step env t st st' ->
  firstn n (rewards st') = firstn n (rewards st) /\
  firstn n (chosen st') = firstn n (chosen st).
Proof.
  intros Hn (arm & r & Harm & Hr & Hc & Hv & Hrs & Hch & ->).
  unfold observed. cbn [rewards chosen].
  now rewrite !firstn_list_set_later by assumption.
Qed.

Lemma trace_prefix_loop (body : nat -> mean_state -> M G mean_state) env :
  (forall t s g s' g', body t s g = Ok (s', g') -> mean_step env t s s') ->
  forall k n st (g : G) st' g',
    for_range body n k st g = Ok (st', g') ->
    firstn n (rewards st') = firstn n (rewards st) /\
    firstn n (chosen st') = firstn n (chosen st).
Proof.
  intros Hbody k n st g st' g' E.
  apply (for_range_invariant body
           (fun t s => (n <= t)%nat /\
                       firstn n (rewards s) = firstn n (rewards st) /\
                       firstn n (chosen s) = firstn n (chosen st))) in E.
  - tauto.
  - intros t s g1 s' g1' (Ht & Hr & Hc) Es. apply Hbody in Es.
    destruct (trace_prefix_step Ht Es) as (Hr' & Hc').
    split; [lia|]. split; congruence.
  - auto.
Qed.

(** A run of [n + k] steps goes through the state of the run of [n] steps. *)
Lemma steps_split {St} (init : result St) (body : nat -> St -> M G St)
      n k (g : G) st g1 st' g2 :
  bind (lift init) (fun s => for_range body 0 n s) g = Ok (st, g1) ->
  bind (lift init) (fun s => for_range body 0 (n + k) s) g = Ok (st', g2) ->
  for_range body n k st g1 = Ok (st', g2).
Proof.
  intros E1 E2.
  apply bind_Ok in E1. destruct E1 as (s0 & g0 & E0 & E1).
  apply bind_Ok in E2. destruct E2 as (s0' & g0' & E0' & E2).
  rewrite E0 in E0'. inversion E0'; subst s0' g0'.
  rewrite for_range_split in E2.
  apply bind_Ok in E2. destruct E2 as (sm & gm & Em & E2).
  rewrite E1 in Em. inversion Em; subst sm gm. exact E2.
Qed.

(** The first entry of a history of at least one step. *)
Lemma pulls_of_first n rs cs :
  (1 <= n)%nat -> (1 <= length rs)%nat -> nth 0 cs 1%Z = 0%Z ->
  (1 <= pulls_of 0 (history n rs cs))%nat.
Proof.
  intros Hn Hr Hc. destruct n as [|n]; [lia|].
  destruct rs as [|r rs]; [simpl in Hr; lia|].
  destruct cs as [|c cs]; [simpl in Hc; discriminate|].
  simpl in Hc. subst c. unfold history. simpl. lia.
Qed.

(** After a first step on arm 0, arm 0 stays the first entry of the trace. *)
Lemma first_arm_kept (body : nat -> mean_state -> M G mean_state) env
      st0 (g0 : G) n st g' :
  (forall t s g s' g', body t s g = Ok (s', g') -> mean_step env t s s') ->
  (forall s1 g1, body 0%nat st0 g0 = Ok (s1, g1) ->
     exists r, s1 = observed st0 0 0 r) ->
  (1 <= n)%nat ->
  for_range body 0 n st0 g0 = Ok (st, g') ->
  nth 0 (chosen st) 1%Z = 0%Z /\ (1 <= length (rewards st))%nat.
Proof.
  intros Hbody Hfirst Hn E.
  destruct n as [|k]; [lia|]. change (S k) with (1 + k)%nat in E.
  rewrite for_range_split in E.
  apply bind_Ok in E. destruct E as (s1 & g1 & E1 & E).
  simpl in E1. apply bind_Ok in E1. destruct E1 as (s1' & g1' & E1 & Er).
  apply ret_Ok in Er. destruct Er as (-> & ->).
  pose proof (Hbody _ _ _ _ _ E1) as Hstep.
  destruct (Hfirst _ _ E1) as (r & ->).
  destruct Hstep as (_ & _ & _ & _ & _ & _ & Hrs & Hch & _).
  destruct (@trace_prefix_loop body env Hbody _ _ _ _ _ _ E) as (Hr' & Hc').
  simpl Nat.add in Hr', Hc'. unfold observed in Hr', Hc'.
  cbn [rewards chosen] in Hr', Hc'.
  split.
  - destruct (chosen st0) as [|c0 cs0]; [simpl in Hch; lia|].
    simpl in Hc'. destruct (chosen st) as [|c cs]; [discriminate|].
    simpl in Hc'. simpl. congruence.
  - destruct (rewards st0) as [|r0 rs0]; [simpl in Hrs; lia|].
    simpl in Hr'. destruct (rewards st) as [|r1 rs]; [discriminate|].
    simpl. lia.
Qed.

End MeanExtras.

Section MeanExtraTheorems.

Context {G : Type} `{RandomSource G}.

Open Scope py_scope.

Lemma ucb_bounds_init np_sqrt np_log nK rs cs :
  ucb_bounds np_sqrt np_log 0
    {| counts := repeat 1 nK; values := repeat 0 nK;
       rewards := rs; chosen := cs |} =
  repeat (0 + np_sqrt (2 * np_log (inject_Z (Z.of_nat 0 + 1)) / 1)) nK.
Proof.
  unfold ucb_bounds, np_add. cbn [counts values].
  now rewrite !map_repeat, combine_repeat, map_repeat.
Qed.

Lemma ucb_first_step np_sqrt np_log env nK rs cs (g : G) s1 g1 :
  let st0 := {| counts := repeat 1 nK; values := repeat 0 nK;
                rewards := rs; chosen := cs |} in
  ucb_step np_sqrt np_log env 0 st0 g = Ok (s1, g1) ->
  exists r, s1 = observed st0 0 0 r.
Proof.
  intros st0 E. rewrite ucb_step_observe in E.
  apply bind_Ok in E. destruct E as (arm & g2 & Earm & E).
  apply lift_Ok in Earm. destruct Earm as (Earm & ->).
  subst st0. rewrite ucb_bounds_init in Earm.
  destruct nK as [|m]; [discriminate|].
  rewrite np_argmax_constant in Earm. inversion Earm; subst arm.
  apply observe_inv in E; [|lia].
  destruct E as (r & _ & _ & _ & _ & _ & _ & ->). now exists r.
Qed.

Lemma eg_first_step `{!RandomSourceLaws G} env eps nK rs cs (g : G) s1 g1 :
  eps <= 0 ->
  let st0 := {| counts := repeat 0 nK; values := repeat 0 nK;
                rewards := rs; chosen := cs |} in
  eg_step env eps 0 st0 g = Ok (s1, g1) ->
  exists r, s1 = observed st0 0 0 r.
Proof.
  intros Heps st0 E. rewrite eg_step_observe in E.
  apply bind_Ok in E. destruct E as (u & g2 & Eu & E).
  apply bind_Ok in E. destruct E as (arm & g3 & Earm & E).
  unfold np_random_rand in Eu. inversion Eu as [Eu'].
  pose proof (rand_unit g) as (Hu0 & _). rewrite Eu' in Hu0. simpl in Hu0.
  assert (Hlt : Qltb u eps = false) by (apply Qltb_ge; lra).
  rewrite Hlt in Earm.
  apply lift_Ok in Earm. destruct Earm as (Earm & ->).
  subst st0. cbn [values] in Earm.
  destruct nK as [|m]; [discriminate|].
  rewrite np_argmax_constant in Earm. inversion Earm; subst arm.
  apply observe_inv in E; [|lia].
  destruct E as (r & _ & _ & _ & _ & _ & _ & ->). now exists r.
Qed.

(** In every run of [epsilon_greedy], after every step, every count is
    non-negative and every value estimate lies in [0, 1]. *)
Theorem eg_estimates_unit `{!RandomSourceLaws G}
    (env : AdBandit) (T : Z) (eps : Q) (n : nat) (g : G)
    (st : mean_state) (g' : G) :
  eg_steps env T eps n g = Ok (st, g') ->
  Forall (Qle 0) (counts st) /\ Forall (fun v => 0 <= v <= 1) (values st).
Proof.
  apply (eg_steps_induction
           (fun _ s => Forall (Qle 0) (counts s) /\
                       Forall (fun v => 0 <= v <= 1) (values s))).
  - intros t s s' HI Hstep. exact (estimates_step Hstep HI).
  - apply estimates_init. lra.
Qed.

(** In every run of [ucb1], after every step, every value estimate lies in
    [0, 1]. *)
Theorem ucb1_estimates_unit (np_sqrt np_log : Q -> Q)
    (env : AdBandit) (T : Z) (n : nat) (g : G)
    (st : mean_state) (g' : G) :
  ucb_steps np_sqrt np_log env T n g = Ok (st, g') ->
  Forall (fun v => 0 <= v <= 1) (values st).
Proof.
  intros E.
  apply (ucb_steps_induction np_sqrt np_log
           (fun _ s => Forall (Qle 0) (counts s) /\
                       Forall (fun v => 0 <= v <= 1) (values s))) in E.
  - tauto.
  - intros t s s' HI Hstep. exact (estimates_step Hstep HI).
  - apply estimates_init. lra.
Qed.

(** In every run of [epsilon_greedy], the counts add up to the number of
    completed steps. *)
Theorem eg_counts_total `{!RandomSourceLaws G}
    (env : AdBandit) (T : Z) (eps : Q) (n : nat) (g : G)
    (st : mean_state) (g' : G) :
  eg_steps env T eps n g = Ok (st, g') ->
  total (counts st) == inject_Z (Z.of_nat n).
Proof.
  apply (eg_steps_induction
           (fun t s => total (counts s) == inject_Z (Z.of_nat t))).
  - intros t s s' HI Hstep. rewrite (count_total_step Hstep), HI.
    rewrite Nat2Z.inj_succ. unfold Z.succ. now rewrite inject_Z_plus.
  - cbn [counts]. rewrite total_repeat. simpl. ring.
Qed.

(** In every run of [ucb1], the counts add up to the number of arms plus
    the number of completed steps. *)
Theorem ucb1_counts_total (np_sqrt np_log : Q -> Q)
    (env : AdBandit) (T : Z) (n : nat) (g : G)
    (st : mean_state) (g' : G) :
  ucb_steps np_sqrt np_log env T n g = Ok (st, g') ->
  total (counts st) == inject_Z (K env) + inject_Z (Z.of_nat n).
Proof.
  intros E.
  assert (HK : (0 <= K env)%Z).
  { unfold ucb_steps in E. apply bind_Ok in E.
    destruct E as (st0 & g0 & E0 & _). apply lift_Ok in E0.
    destruct E0 as (E0 & _). now apply ucb_init_inv in E0. }
  revert E.
  apply (ucb_steps_induction np_sqrt np_log
           (fun t s => total (counts s) ==
                       inject_Z (K env) + inject_Z (Z.of_nat t))).
  - intros t s s' HI Hstep. rewrite (count_total_step Hstep), HI.
    rewrite Nat2Z.inj_succ. unfold Z.succ. rewrite inject_Z_plus. ring.
  - cbn [counts]. rewrite total_repeat, Z2Nat.id by assumption.
    simpl Z.of_nat. change (inject_Z 0) with 0. ring.
Qed.

(** [epsilon_greedy] only appends to its trace: the entries recorded by the
    first [n] steps are those the run still holds after [n + k] steps. *)
Theorem eg_trace_append_only `{!RandomSourceLaws G}
    (env : AdBandit) (T : Z) (eps : Q) (n k : nat) (g : G)
    (st : mean_state) (g1 : G) (st' : mean_state) (g2 : G) :
  eg_steps env T eps n g = Ok (st, g1) ->
  eg_steps env T eps (n + k) g = Ok (st', g2) ->
  firstn n (rewards st') = firstn n (rewards st) /\
  firstn n (chosen st') = firstn n (chosen st).
Proof.
  intros E1 E2. unfold eg_steps in E1, E2.
  assert (E : for_range (eg_step env eps) n k st g1 = Ok (st', g2))
    by (eapply steps_split; [exact E1|exact E2]).
  apply trace_prefix_loop with (env := env) in E; [exact E|].
  intros t s g0 s' g0' Es. eapply eg_step_inv; eauto.
Qed.

(** [ucb1] only appends to its trace. *)
Theorem ucb1_trace_append_only (np_sqrt np_log : Q -> Q)
    (env : AdBandit) (T : Z) (n k : nat) (g : G)
    (st : mean_state) (g1 : G) (st' : mean_state) (g2 : G) :
  ucb_steps np_sqrt np_log env T n g = Ok (st, g1) ->
  ucb_steps np_sqrt np_log env T (n + k) g = Ok (st', g2) ->
  firstn n (rewards st') = firstn n (rewards st) /\
  firstn n (chosen st') = firstn n (chosen st).
Proof.
  intros E1 E2. unfold ucb_steps in E1, E2.
  assert (E : for_range (ucb_step np_sqrt np_log env) n k st g1 = Ok (st', g2))
    by (eapply steps_split; [exact E1|exact E2]).
  apply trace_prefix_loop with (env := env) in E; [exact E|].
  intros t s g0 s' g0' Es. eapply ucb_step_inv; eauto.
Qed.

(** The first pull of [ucb1] is always arm 0: at step 0 all the bounds are
    equal, whatever [np.sqrt] and [np.log] return, and [np.argmax] takes the
    first. *)
Theorem ucb1_first_arm (np_sqrt np_log : Q -> Q)
    (env : AdBandit) (T : Z) (n : nat) (g : G)
    (st : mean_state) (g' : G) :
  (1 <= n)%nat ->
  ucb_steps np_sqrt np_log env T n g = Ok (st, g') ->
  nth 0 (chosen st) 1%Z = 0%Z /\
  (1 <= pulls_of 0 (history n (rewards st) (chosen st)))%nat.
Proof.
  intros Hn E. unfold ucb_steps in E.
  apply bind_Ok in E. destruct E as (st0 & g0 & E0 & E).
  apply lift_Ok in E0. destruct E0 as (E0 & ->).
  apply ucb_init_inv in E0. destruct E0 as (_ & _ & ->).
  apply first_arm_kept with (env := env) in E;
    [| |intros s1 g1 E1; now apply ucb_first_step in E1|exact Hn].
  - destruct E as (Hc & Hr). split; [exact Hc|].
    now apply pulls_of_first.
  - intros t s g1 s' g1' Es. eapply ucb_step_inv; eauto.
Qed.

(** With epsilon <= 0, [epsilon_greedy] never explores at step 0: all value
    estimates are 0 and its first pull is arm 0. *)
Theorem eg_greedy_first_arm `{!RandomSourceLaws G}
    (env : AdBandit) (T : Z) (eps : Q) (n : nat) (g : G)
    (st : mean_state) (g' : G) :
  eps <= 0 -> (1 <= n)%nat ->
  eg_steps env T eps n g = Ok (st, g') ->
  nth 0 (chosen st) 1%Z = 0%Z /\
  (1 <= pulls_of 0 (history n (rewards st) (chosen st)))%nat.
Proof.
  intros Heps Hn E. unfold eg_steps in E.
  apply bind_Ok in E. destruct E as (st0 & g0 & E0 & E).
  apply lift_Ok in E0. destruct E0 as (E0 & ->).
  apply eg_init_inv in E0. destruct E0 as (_ & _ & ->).
  apply first_arm_kept with (env := env) in E;
    [| |intros s1 g1 E1; now apply eg_first_step in E1|exact Hn].
  - destruct E as (Hc & Hr). split; [exact Hc|].
    now apply pulls_of_first.
  - intros t s g1 s' g1' Es. eapply eg_step_inv; eauto.
Qed.

End MeanExtraTheorems.

(** ** More on the runs of thompson_sampling *)

Section ThompsonExtras.

Context {G : Type} `{RandomSource G}.

Open Scope py_scope.

Lemma ts_steps_induction (I : nat -> beta_state -> Prop)
      env T n (g : G) st g' :
  (forall t s s', I t s -> ts_step_rel env t s s' -> I (S t) s') ->
  I 0%nat {| alpha := repeat 1 (Z.to_nat (K env));
             beta := repeat 1 (Z.to_nat (K env));
             ts_rewards := repeat 0 (Z.to_nat T);
             ts_chosen := repeat 0%Z (Z.to_nat T) |} ->
  ts_steps env T n g = Ok (st, g') -> I n st.
Proof.
  intros Hstep Hinit E. unfold ts_steps in E.
  apply bind_Ok in E. destruct E as (st0 & g0 & E0 & E).
  apply lift_Ok in E0. destruct E0 as (E0 & ->).
  apply ts_init_inv in E0. destruct E0 as (_ & _ & ->).
  apply (for_range_invariant (ts_step env) I) in E; [exact E| |exact Hinit].
  intros t s g1 s' g1' HI Es. apply (Hstep t s s' HI).
  eapply ts_step_inv; eauto.
Qed.

(** A completed step adds the reward to the sum of [alpha], its complement
    to the sum of [beta], and appends the reward to the trace. *)
Lemma ts_totals_step env t st st' :
  ts_step_rel env t st st' ->
  exists r : Q,
    total (alpha st') == total (alpha st) + r /\
    total (beta st') == total (beta st) + (1 - r) /\
    firstn (S t) (ts_rewards st') = firstn t (ts_rewards st) ++ [r].
Proof.
  intros (arm & r & Harm & Hr & Ha & Hb & Hrs & Hch & ->).
  exists (inject_Z r). unfold ts_observed. cbn [alpha beta ts_rewards].
  rewrite !total_list_set by assumption.
  rewrite firstn_list_set_snoc by assumption.
  repeat split; try ring.
  unfold Z.sub. rewrite inject_Z_plus, inject_Z_opp.
  change (inject_Z 1) with 1. ring.
Qed.

Lemma ts_trace_prefix_loop env : forall k n st (g : G) st' g',
  for_range (ts_step env) n k st g = Ok (st', g') ->
  firstn n (ts_rewards st') = firstn n (ts_rewards st) /\
  firstn n (ts_chosen st') = firstn n (ts_chosen st).
Proof.
  intros k n st g st' g' E.
  apply (for_range_invariant (ts_step env)
           (fun t s => (n <= t)%nat /\
                       firstn n (ts_rewards s) = firstn n (ts_rewards st) /\
                       firstn n (ts_chosen s) = firstn n (ts_chosen st))) in E.
  - tauto.
  - intros t s g1 s' g1' (Ht & Hr & Hc) Es. apply ts_step_inv in Es.
    destruct Es as (arm & r & _ & _ & _ & _ & _ & _ & ->).
    unfold ts_observed. cbn [ts_rewards ts_chosen].
    rewrite !firstn_list_set_later by assumption.
    split; [lia|]. split; assumption.
  - auto.
Qed.

(** In every run of [thompson_sampling], after [n] steps, the entries of
    [alpha] add up to the number of arms plus the rewards collected so far
    and those of [beta] to the number of arms plus the failures so far. *)
Theorem thompson_pseudo_count_totals
    (env : AdBandit) (T : Z) (n : nat) (g : G)
    (st : beta_state) (g' : G) :
  ts_steps env T n g = Ok (st, g') ->
  let successes := total (firstn n (ts_rewards st)) in
  total (alpha st) == inject_Z (K env) + successes /\
  total (beta st) == inject_Z (K env) + (inject_Z (Z.of_nat n) - successes).
Proof.
  intros E.
  assert (HK : (0 <= K env)%Z).
  { unfold ts_steps in E. apply bind_Ok in E.
    destruct E as (st0 & g0 & E0 & _). apply lift_Ok in E0.
    destruct E0 as (E0 & _). now apply ts_init_inv in E0. }
  revert E. cbv zeta.
  apply (ts_steps_induction
           (fun t s =>
              total (alpha s) ==
                inject_Z (K env) + total (firstn t (ts_rewards s)) /\
              total (beta s) ==
                inject_Z (K env) +
                (inject_Z (Z.of_nat t) - total (firstn t (ts_rewards s))))).
  - intros t s s' (Ha & Hb) Hstep.
    destruct (ts_totals_step Hstep) as (r & Ha' & Hb' & Hr').
    rewrite Ha', Hb', Hr', total_snoc, Ha, Hb.
    rewrite Nat2Z.inj_succ. unfold Z.succ. rewrite inject_Z_plus.
    change (inject_Z 1) with 1. split; ring.
  - cbn [alpha beta ts_rewards]. rewrite total_repeat, Z2Nat.id by assumption.
    change (total (firstn 0 (repeat 0 (Z.to_nat T)))) with 0.
    change (inject_Z (Z.of_nat 0)) with 0. split; ring.
Qed.

(** [thompson_sampling] only appends to its trace. *)
Theorem thompson_trace_append_only
    (env : AdBandit) (T : Z) (n k : nat) (g : G)
    (st : beta_state) (g1 : G) (st' : beta_state) (g2 : G) :
  ts_steps env T n g = Ok (st, g1) ->
  ts_steps env T (n + k) g = Ok (st', g2) ->
  firstn n (ts_rewards st') = firstn n (ts_rewards st) /\
  firstn n (ts_chosen st') = firstn n (ts_chosen st).
Proof.
  intros E1 E2. unfold ts_steps in E1, E2.
  assert (E : for_range (ts_step env) n k st g1 = Ok (st', g2))
    by (eapply steps_split; [exact E1|exact E2]).
  now apply ts_trace_prefix_loop in E.
Qed.

End ThompsonExtras.

(** ** More on the accounting of run_simulation *)

Lemma total_binary_bounds rs :
  Forall reward_ok rs -> 0 <= total rs <= inject_Z (Z.of_nat (length rs)).
Proof.
  induction 1 as [|r rs Hr Hrs IH].
  - unfold total. simpl. change (inject_Z 0) with 0. lra.
  - change (total (r :: rs)) with (r + total rs). simpl length.
    rewrite Nat2Z.inj_succ. unfold Z.succ. rewrite inject_Z_plus.
    change (inject_Z 1) with 1.
    destruct Hr as [-> | ->]; lra.
Qed.

Lemma cumsum_from_length a : forall acc,
  length (cumsum_from acc a) = length a.
Proof. induction a as [|x a IH]; intros acc; simpl; [|rewrite IH]; auto. Qed.

Lemma np_cumsum_length a : length (np_cumsum a) = length a.
Proof. destruct a; simpl; [|rewrite cumsum_from_length]; auto. Qed.

(** At every step, cumulative reward plus cumulative regret is the number
    of steps so far times the optimal probability. *)
Lemma cumsum_identity optimal rs t :
  (t < length rs)%nat ->
  nth t (np_cumsum rs) 0 + nth t (np_cumsum (np_rsub optimal rs)) 0 ==
  inject_Z (Z.of_nat (S t)) * optimal.
Proof.
  intros Ht. rewrite !np_cumsum_nth by (rewrite ?np_rsub_length; lia).
  unfold np_rsub. rewrite firstn_map. fold (np_rsub optimal (firstn (S t) rs)).
  rewrite total_np_rsub, length_firstn.
  replace (Nat.min (S t) (length rs)) with (S t) by lia. ring.
Qed.

Lemma cumsum_binary_bounds rs t :
  Forall reward_ok rs -> (t < length rs)%nat ->
  0 <= nth t (np_cumsum rs) 0 <= inject_Z (Z.of_nat (S t)).
Proof.
  intros Hrs Ht. rewrite np_cumsum_nth by assumption.
  pose proof (total_binary_bounds (Forall_firstn (S t) Hrs)) as Hb.
  rewrite length_firstn in Hb.
  replace (Nat.min (S t) (length rs)) with (S t) in Hb by lia. exact Hb.
Qed.

Lemma cumsum_binary_step rs t :
  Forall reward_ok rs -> (S t < length rs)%nat ->
  nth t (np_cumsum rs) 0 <= nth (S t) (np_cumsum rs) 0 <=
  nth t (np_cumsum rs) 0 + 1.
Proof.
  intros Hrs Ht. rewrite (np_cumsum_step rs Ht).
  pose proof (proj1 (Forall_nth _ _) Hrs _ 0 Ht) as [E | E];
    rewrite E; lra.
Qed.

Section AccountingExtras.

Context {G : Type} `{RandomSource G}.
Variables np_sqrt np_log : Q -> Q.

Open Scope py_scope.

Lemma observe_rewards_binary env t st arm (g : G) st' g' :
  observe env t st arm g = Ok (st', g') ->
  Forall reward_ok (rewards st) -> Forall reward_ok (rewards st').
Proof.
  unfold observe. intros E Hrs.
  apply bind_Ok in E. destruct E as (r & g1 & Er & E).
  apply bind_Ok in E. destruct E as (cv & g2 & _ & E).
  apply bind_Ok in E. destruct E as (rs' & g3 & Ers & E).
  apply bind_Ok in E. destruct E as (ch' & g4 & _ & E).
  apply ret_Ok in E. destruct E as (-> & _). simpl.
  apply lift_Ok in Ers. destruct Ers as (Ers & _).
  apply np_setitem_inv_any in Ers. destruct Ers as (j & ->).
  apply pull_inv in Er. destruct Er as (_ & Hr).
  apply Forall_list_set; [assumption|now apply reward_ok_inject].
Qed.

Lemma zeros_binary n : Forall reward_ok (repeat 0 n).
Proof.
  apply Forall_forall. intros x Hx. apply repeat_spec in Hx. now left.
Qed.

Lemma epsilon_greedy_binary env T eps (g : G) tr g' :
  epsilon_greedy env T eps g = Ok (tr, g') -> Forall reward_ok (fst tr).
Proof.
  unfold epsilon_greedy, eg_steps. intros E.
  apply bind_Ok in E. destruct E as (st & g1 & E & Er).
  apply ret_Ok in Er. destruct Er as (-> & _). simpl.
  apply bind_Ok in E. destruct E as (st0 & g0 & E0 & E).
  apply lift_Ok in E0. destruct E0 as (E0 & ->).
  apply eg_init_inv in E0. destruct E0 as (_ & _ & ->).
  apply (for_range_invariant (eg_step env eps)
           (fun _ s => Forall reward_ok (rewards s))) in E.
  - exact E.
  - intros t s g2 s' g2' HI Es. rewrite eg_step_observe in Es.
    apply bind_Ok in Es. destruct Es as (u & g3 & _ & Es).
    apply bind_Ok in Es. destruct Es as (arm & g4 & _ & Es).
    eapply observe_rewards_binary; eauto.
  - apply zeros_binary.
Qed.

Lemma ucb1_binary env T (g : G) tr g' :
  ucb1 np_sqrt np_log env T g = Ok (tr, g') -> Forall reward_ok (fst tr).
Proof.
  unfold ucb1, ucb_steps. intros E.
  apply bind_Ok in E. destruct E as (st & g1 & E & Er).
  apply ret_Ok in Er. destruct Er as (-> & _). simpl.
  apply bind_Ok in E. destruct E as (st0 & g0 & E0 & E).
  apply lift_Ok in E0. destruct E0 as (E0 & ->).
  apply ucb_init_inv in E0. destruct E0 as (_ & _ & ->).
  apply (for_range_invariant (ucb_step np_sqrt np_log env)
           (fun _ s => Forall reward_ok (rewards s))) in E.
  - exact E.
  - intros t s g2 s' g2' HI Es. rewrite ucb_step_observe in Es.
    apply bind_Ok in Es. destruct Es as (arm & g4 & _ & Es).
    eapply observe_rewards_binary; eauto.
  - apply zeros_binary.
Qed.

Lemma thompson_sampling_binary env T (g : G) tr g' :
  thompson_sampling env T g = Ok (tr, g') -> Forall reward_ok (fst tr).
Proof.
  unfold thompson_sampling. intros E.
  apply bind_Ok in E. destruct E as (st & g1 & E & Er).
  apply ret_Ok in Er. destruct Er as (-> & _). simpl.
  revert E.
  apply (ts_steps_induction (fun _ s => Forall reward_ok (ts_rewards s))).
  - intros t s s' HI (arm & r & _ & Hr & _ & _ & _ & _ & ->).
    unfold ts_observed. cbn [ts_rewards].
    apply Forall_list_set; [assumption|now apply reward_ok_inject].
  - apply zeros_binary.
Qed.

(** The three pairs of series of a completed [run_simulation]: each is the
    running sum of a binary trace of T rewards and the running sum of its
    shortfalls from the optimal probability. *)
Lemma run_simulation_T_series ads0 ctrs0 T (g : G) res g' :
  run_simulation_T np_sqrt np_log ads0 ctrs0 T g = Ok (res, g') ->
  exists optimal,
    np_max ctrs0 = Ok optimal /\
    forall clicks regret,
      In (clicks, regret)
         [(res_eg res, reg_eg res); (res_ucb res, reg_ucb res);
          (res_ts res, reg_ts res)] ->
      exists rs,
        length rs = Z.to_nat T /\ Forall reward_ok rs /\
        clicks = np_cumsum rs /\ regret = np_cumsum (np_rsub optimal rs).
Proof.
  unfold run_simulation_T. intros E.
  apply bind_Ok in E. destruct E as (eg & g1 & Eeg & E).
  apply bind_Ok in E. destruct E as (ucb & g2 & Eucb & E).
  apply bind_Ok in E. destruct E as (ts & g3 & Ets & E).
  apply bind_Ok in E. destruct E as (optimal & g4 & Eopt & E).
  apply ret_Ok in E. destruct E as (-> & _).
  apply lift_Ok in Eopt. destruct Eopt as (Eopt & _).
  exists optimal. split; [exact Eopt|].
  intros clicks regret Hin. cbn [res_eg res_ucb res_ts reg_eg reg_ucb reg_ts]
    in Hin.
  destruct Hin as [E | [E | [E | []]]]; inversion E; subst clicks regret.
  - exists (fst eg). split; [now apply epsilon_greedy_length in Eeg|].
    split; [now apply epsilon_greedy_binary in Eeg|]. auto.
  - exists (fst ucb). split; [now apply ucb1_length in Eucb|].
    split; [now apply ucb1_binary in Eucb|]. auto.
  - exists (fst ts). split; [now apply thompson_sampling_length in Ets|].
    split; [now apply thompson_sampling_binary in Ets|]. auto.
Qed.

(** For each algorithm of a completed [run_simulation] and every step
    t < T, cumulative clicks plus cumulative regret is (t + 1) times the
    optimal probability. *)
Theorem clicks_plus_regret (ads0 : list string) (ctrs0 : list Q) (T : Z)
    (g : G) (res : Results) (g' : G) (t : nat) :
  run_simulation_T np_sqrt np_log ads0 ctrs0 T g = Ok (res, g') ->
  (t < Z.to_nat T)%nat ->
  exists optimal,
    np_max ctrs0 = Ok optimal /\
    forall clicks regret,
      In (clicks, regret)
         [(res_eg res, reg_eg res); (res_ucb res, reg_ucb res);
          (res_ts res, reg_ts res)] ->
      nth t clicks 0 + nth t regret 0 ==
      inject_Z (Z.of_nat t + 1) * optimal.
Proof.
  intros E Ht. apply run_simulation_T_series in E.
  destruct E as (optimal & Eopt & Hseries).
  exists optimal. split; [exact Eopt|]. intros clicks regret Hin.
  destruct (Hseries _ _ Hin) as (rs & Hlen & _ & -> & ->).
  rewrite cumsum_identity by lia.
  now rewrite Nat2Z.inj_succ.
Qed.

(** Each cumulative-clicks series of a completed [run_simulation] is
    non-decreasing and grows by at most one click per step. *)
Theorem clicks_monotone (ads0 : list string) (ctrs0 : list Q) (T : Z)
    (g : G) (res : Results) (g' : G) (t : nat) :
  run_simulation_T np_sqrt np_log ads0 ctrs0 T g = Ok (res, g') ->
  (S t < Z.to_nat T)%nat ->
  forall clicks,
    In clicks [res_eg res; res_ucb res; res_ts res] ->
    nth t clicks 0 <= nth (S t) clicks 0 <= nth t clicks 0 + 1.
Proof.
  intros E Ht clicks Hin. apply run_simulation_T_series in E.
  destruct E as (optimal & _ & Hseries).
  assert (Hpair : exists regret,
             In (clicks, regret)
                [(res_eg res, reg_eg res); (res_ucb res, reg_ucb res);
                 (res_ts res, reg_ts res)]).
  { simpl in Hin. destruct Hin as [<- | [<- | [<- | []]]];
      eexists; simpl; eauto. }
  destruct Hpair as (regret & Hpair).
  destruct (Hseries _ _ Hpair) as (rs & Hlen & Hrs & -> & _).
  apply cumsum_binary_step; [assumption|lia].
Qed.

(** For each algorithm of a completed [run_simulation] and every step
    t < T: the cumulative clicks lie in [0, t + 1] and, in exact arithmetic,
    the cumulative regret lies between (t + 1)(optimal - 1) and
    (t + 1) optimal. *)
Theorem series_bounds (ads0 : list string) (ctrs0 : list Q) (T : Z)
    (g : G) (res : Results) (g' : G) (t : nat) :
  run_simulation_T np_sqrt np_log ads0 ctrs0 T g = Ok (res, g') ->
  (t < Z.to_nat T)%nat ->
  exists optimal,
    np_max ctrs0 = Ok optimal /\
    forall clicks regret,
      In (clicks, regret)
         [(res_eg res, reg_eg res); (res_ucb res, reg_ucb res);
          (res_ts res, reg_ts res)] ->
      let steps := inject_Z (Z.of_nat t + 1) in
      0 <= nth t clicks 0 <= steps /\
      steps * (optimal - 1) <= nth t regret 0 <= steps * optimal.
Proof.
  intros E Ht. apply run_simulation_T_series in E.
  destruct E as (optimal & Eopt & Hseries).
  exists optimal. split; [exact Eopt|]. intros clicks regret Hin steps.
  destruct (Hseries _ _ Hin) as (rs & Hlen & Hrs & -> & ->).
  pose proof (@cumsum_identity optimal rs t ltac:(lia)) as Hid.
  pose proof (@cumsum_binary_bounds rs t Hrs ltac:(lia)) as Hb.
  rewrite Nat2Z.inj_succ in Hid, Hb. unfold Z.succ in Hid, Hb.
  fold steps in Hid, Hb. split; [exact Hb|]. split; nra.
Qed.

End AccountingExtras.

(** ** The best ad and the whole simulation *)

(** [np.argmax] scans from the left and keeps the first largest entry:
    [pre] is the part of the array already scanned. *)
Lemma argmax_from_spec a : forall pre best_i best,
  (best_i < length pre)%nat ->
  nth best_i pre 0 = best ->
  (forall j, (j < best_i)%nat -> nth j pre 0 < best) ->
  (forall j, (j < length pre)%nat -> nth j pre 0 <= best) ->
  exists r,
    argmax_from (Z.of_nat best_i) best (Z.of_nat (length pre)) a =
      Z.of_nat r /\
    (r < length (pre ++ a))%nat /\
    nth r (pre ++ a) 0 =
      fold_left (fun m y => if Qltb m y then y else m) a best /\
    (forall j, (j < r)%nat -> nth j (pre ++ a) 0 < nth r (pre ++ a) 0) /\
    (forall j, (j < length (pre ++ a))%nat ->
               nth j (pre ++ a) 0 <= nth r (pre ++ a) 0).
Proof.
  induction a as [|x a IH]; intros pre best_i best Hi Hbest Hlt Hle.
  - exists best_i. rewrite app_nil_r. simpl. rewrite Hbest. auto.
  - simpl argmax_from. simpl fold_left.
    replace (Z.of_nat (length pre) + 1)%Z
      with (Z.of_nat (length (pre ++ [x])))
      by (rewrite length_app; simpl; lia).
    replace (pre ++ x :: a) with ((pre ++ [x]) ++ a)
      by (now rewrite <- app_assoc).
    assert (Hx : nth (length pre) (pre ++ [x]) 0 = x)
      by (rewrite app_nth2, Nat.sub_diag by lia; reflexivity).
    destruct (Qltb best x) eqn:Ebx.
    + apply Qltb_lt in Ebx. apply IH.
      * rewrite length_app. simpl. lia.
      * exact Hx.
      * intros j Hj. rewrite app_nth1 by lia.
        specialize (Hle j Hj). lra.
      * intros j Hj. rewrite length_app in Hj. simpl in Hj.
        destruct (Nat.eq_dec j (length pre)) as [-> | Hne].
        -- rewrite Hx. apply Qle_refl.
        -- rewrite app_nth1 by lia. specialize (Hle j ltac:(lia)). lra.
    + apply Qltb_ge in Ebx. apply IH.
      * rewrite length_app. simpl. lia.
      * rewrite app_nth1 by lia. exact Hbest.
      * intros j Hj. rewrite app_nth1 by lia. auto.
      * intros j Hj. rewrite length_app in Hj. simpl in Hj.
        destruct (Nat.eq_dec j (length pre)) as [-> | Hne].
        -- now rewrite Hx.
        -- rewrite app_nth1 by lia. apply Hle. lia.
Qed.

Lemma np_argmax_first_max a optimal :
  np_max a = Ok optimal ->
  exists i,
    np_argmax a = Ok (Z.of_nat i) /\ (i < length a)%nat /\
    nth i a 0 = optimal /\
    (forall j, (j < i)%nat -> nth j a 0 < optimal) /\
    (forall j, (j < length a)%nat -> nth j a 0 <= optimal).
Proof.
  destruct a as [|x a]; [discriminate|]. simpl np_max. intros E.
  inversion E as [E']. clear E.
  destruct (@argmax_from_spec a [x] 0%nat x) as (r & Er & Hr & Hmax & Hlt & Hle);
    try (simpl; lia); try reflexivity.
  { intros j Hj. simpl in Hj. replace j with 0%nat by lia. apply Qle_refl. }
  exists r. simpl app in *. rewrite Hmax in *.
  split; [simpl; now rewrite <- Er|]. auto.
Qed.

Section SimulationExtras.

Context {G : Type} `{RandomSource G}.
Variables np_sqrt np_log : Q -> Q.

Open Scope py_scope.

Lemma run_simulation_T_dataset ads0 ctrs0 T (g : G) res g' :
  run_simulation_T np_sqrt np_log ads0 ctrs0 T g = Ok (res, g') ->
  res_ads res = ads0 /\ res_expected res = ctrs0 /\
  exists optimal, np_max ctrs0 = Ok optimal.
Proof.
  unfold run_simulation_T. intros E.
  apply bind_Ok in E. destruct E as (eg & g1 & _ & E).
  apply bind_Ok in E. destruct E as (ucb & g2 & _ & E).
  apply bind_Ok in E. destruct E as (ts & g3 & _ & E).
  apply bind_Ok in E. destruct E as (optimal & g4 & Eopt & E).
  apply ret_Ok in E. destruct E as (-> & _).
  apply lift_Ok in Eopt. destruct Eopt as (Eopt & _).
  simpl. eauto.
Qed.

Lemma run_simulation_T_total `{!RandomSourceLaws G} ads0 ctrs0 T (g : G) :
  length ctrs0 = length ads0 -> ads0 <> [] -> (0 <= T)%Z ->
  exists res g',
    run_simulation_T np_sqrt np_log ads0 ctrs0 T g = Ok (res, g') /\
    Forall (fun series => Z.of_nat (length series) = T)
      [res_eg res; res_ucb res; res_ts res;
       reg_eg res; reg_ucb res; reg_ts res] /\
    res_ads res = ads0 /\ res_expected res = ctrs0.
Proof.
  intros Hlen Hne HT.
  set (env := AdBandit_init ads0 ctrs0).
  assert (Harms : (0 < K env)%Z).
  { simpl. destruct ads0; [congruence|]. simpl length. lia. }
  assert (Hshape : Z.of_nat (length (ctrs env)) = K env)
    by (simpl; now rewrite Hlen).
  destruct (@epsilon_greedy_total _ _ _ env Harms Hshape T (1 # 10) g HT)
    as (eg & g1 & Eeg & (Leg & _)).
  destruct (@ucb1_total _ _ env Harms Hshape np_sqrt np_log T g1 HT)
    as (ucb & g2 & Eucb & (Lucb & _)).
  destruct (@thompson_sampling_total _ _ _ env Harms Hshape T g2 HT)
    as (ts & g3 & Ets & (Lts & _)).
  assert (Hopt : exists optimal, np_max ctrs0 = Ok optimal).
  { destruct ctrs0 as [|p ps]; [|eexists; reflexivity].
    destruct ads0; [congruence|discriminate]. }
  destruct Hopt as (optimal & Eopt).
  unfold run_simulation_T. fold env. unfold bind.
  rewrite Eeg, Eucb, Ets. unfold lift, expected_rewards.
  change (ctrs env) with ctrs0. rewrite Eopt.
  eexists. eexists. split; [reflexivity|].
  cbn [res_eg res_ucb res_ts reg_eg reg_ucb reg_ts res_ads res_expected].
  split; [|auto].
  repeat constructor;
    rewrite np_cumsum_length, ?np_rsub_length; assumption.
Qed.

(** [run_simulation] on a dataset of K >= 1 rows completes: it returns the
    six series, each of 5000 entries, with the dataset's two columns. *)
Theorem run_simulation_completes `{!RandomSourceLaws G}
    (ads0 : list string) (ctrs0 : list Q) (g : G) :
  length ctrs0 = length ads0 -> ads0 <> [] ->
  exists res g',
    run_simulation np_sqrt np_log ads0 ctrs0 g = Ok (res, g') /\
    Forall (fun series => Z.of_nat (length series) = 5000%Z)
      [res_eg res; res_ucb res; res_ts res;
       reg_eg res; reg_ucb res; reg_ts res] /\
    res_ads res = ads0 /\ res_expected res = ctrs0.
Proof.
  intros Hlen Hne. unfold run_simulation.
  apply run_simulation_T_total; [assumption|assumption|lia].
Qed.

(** [run_simulation] on a dataset without rows: [epsilon_greedy] allocates
    its arrays, raises ValueError in its first arm selection, nothing that
    follows the call to [epsilon_greedy] is executed ([ucb1] and
    [thompson_sampling] are not reached), and [run_simulation] raises that
    error. *)
Theorem run_simulation_empty_dataset `{!RandomSourceLaws G}
    (ctrs0 : list Q) (g : G) :
  let env := AdBandit_init [] ctrs0 in
  exists e,
    (e = ValueError_randint_bounds \/ e = ValueError_argmax_empty) /\
    (exists st0, eg_steps env 5000 (1 # 10) 0 g = Ok (st0, g)) /\
    eg_steps env 5000 (1 # 10) 1 g = Raise e /\
    epsilon_greedy env 5000 (1 # 10) g = Raise e /\
    (forall (A : Type) (k : list Q * list Z -> M G A),
        bind (epsilon_greedy env 5000 (1 # 10)) k g = Raise e) /\
    run_simulation np_sqrt np_log [] ctrs0 g = Raise e.
Proof.
  intros env.
  destruct (@no_arm_selection_raises _ _ np_sqrt np_log _ ctrs0 5000
              (1 # 10) g ltac:(lia)) as ((e & He & E1 & E) & _).
  fold env in E1, E.
  exists e. split; [exact He|]. split; [|split; [exact E1|split; [exact E|]]].
  - unfold eg_steps, bind, lift, eg_init, np_zeros, np_zeros_int.
    rewrite !np_full_Ok by (simpl; lia). simpl. eexists. reflexivity.
  - split.
    + intros A k. unfold bind. now rewrite E.
    + unfold run_simulation, run_simulation_T. fold env. unfold bind.
      now rewrite E.
Qed.

(** The best ad of [show_results], after a completed [run_simulation] on a
    dataset with as many labels as probabilities: the index is that of the
    first arm whose probability is the largest, the label is that arm's, and
    the value shown is the rounded optimal probability of the regret. *)
Theorem best_ad_first_optimum (round3 : Q -> Q)
    (ads0 : list string) (ctrs0 : list Q) (T : Z)
    (g : G) (res : Results) (g' : G) :
  run_simulation_T np_sqrt np_log ads0 ctrs0 T g = Ok (res, g') ->
  length ads0 = length ctrs0 ->
  exists i label optimal,
    show_results_best round3 res = Ok (Z.of_nat i, label, round3 optimal) /\
    np_max ctrs0 = Ok optimal /\
    nth_error ads0 i = Some label /\
    nth i ctrs0 0 = optimal /\
    (forall j, (j < i)%nat -> nth j ctrs0 0 < optimal) /\
    (forall j, (j < length ctrs0)%nat -> nth j ctrs0 0 <= optimal).
Proof.
  intros E Hlen. apply run_simulation_T_dataset in E.
  destruct E as (Eads & Eexp & optimal & Eopt).
  destruct (np_argmax_first_max _ Eopt) as (i & Ei & Hi & Hnth & Hlt & Hle).
  destruct (nth_error ads0 i) as [label|] eqn:Elabel;
    [|apply nth_error_None in Elabel; lia].
  exists i, label, optimal.
  split; [|repeat split; assumption].
  unfold show_results_best. rewrite Eads, Eexp, Ei. simpl rbind.
  rewrite (@np_getitem_Ok _ ads0 (Z.of_nat i) label) by lia.
  simpl rbind.
  rewrite (@np_getitem_Ok _ ctrs0 (Z.of_nat i) 0) by lia.
  simpl rbind. rewrite Nat2Z.id, Hnth.
  now rewrite (nth_error_nth _ _ label Elabel).
Qed.

(** A probability outside [0, 1] acts as the nearest bound: on an in-range
    arm, [pull] returns 0 when the arm's probability is at most 0 and 1 when
    it is at least 1. *)
Theorem pull_saturates `{!RandomSourceLaws G}
    (env : AdBandit) (arm : Z) (g : G) :
  (0 <= arm < Z.of_nat (length (ctrs env)))%Z ->
  let p := nth (Z.to_nat arm) (ctrs env) 0 in
  (p <= 0 -> pull env arm g = Ok (0%Z, snd (random_rand g))) /\
  (1 <= p -> pull env arm g = Ok (1%Z, snd (random_rand g))).
Proof.
  intros Harm p. rewrite pull_Ok by assumption. fold p.
  destruct (rand_unit g) as (Hu0 & Hu1). unfold drawn_reward.
  split; intros Hp.
  - destruct (Qltb (fst (random_rand g)) p) eqn:E; [|reflexivity].
    apply Qltb_lt in E. lra.
  - destruct (Qltb (fst (random_rand g)) p) eqn:E; [reflexivity|].
    apply Qltb_ge in E. lra.
Qed.

End SimulationExtras.

(* ================================================================== *)
(** * Concrete runs, continued *)

(** [eg_estimates_unit] after three steps on the two-arm dataset. *)
Lemma eg_estimates_unit_witness :
  exists st g',
    RandomSourceLaws Z /\
    eg_steps demo_env 3 (1 # 10) 3 0%Z = Ok (st, g') /\
    Forall (Qle 0) (counts st) /\ Forall (fun v => 0 <= v <= 1) (values st).
Proof.
  eexists. eexists. split; [exact counter_source_laws|].
  split; [vm_compute; reflexivity|].
  eapply (@eg_estimates_unit Z _ counter_source_laws)
    with (env := demo_env) (T := 3%Z) (eps := 1 # 10) (n := 3%nat) (g := 0%Z).
  vm_compute. reflexivity.
Defined.

(** [ucb1_estimates_unit] after three steps on the two-arm dataset. *)
Lemma ucb1_estimates_unit_witness :
  exists st g',
    ucb_steps approx_sqrt approx_log demo_env 3 3 0%Z = Ok (st, g') /\
    Forall (fun v => 0 <= v <= 1) (values st).
Proof.
  eexists. eexists. split; [vm_compute; reflexivity|].
  eapply (@ucb1_estimates_unit Z _ approx_sqrt approx_log)
    with (env := demo_env) (T := 3%Z) (n := 3%nat) (g := 0%Z).
  vm_compute. reflexivity.
Defined.

(** [eg_counts_total] after three steps on the two-arm dataset. *)
Lemma eg_counts_total_witness :
  exists st g',
    RandomSourceLaws Z /\
    eg_steps demo_env 3 (1 # 10) 3 0%Z = Ok (st, g') /\
    total (counts st) == inject_Z (Z.of_nat 3).
Proof.
  eexists. eexists. split; [exact counter_source_laws|].
  split; [vm_compute; reflexivity|].
  eapply (@eg_counts_total Z _ counter_source_laws)
    with (env := demo_env) (T := 3%Z) (eps := 1 # 10) (g := 0%Z).
  vm_compute. reflexivity.
Defined.

(** [ucb1_counts_total] after three steps on the two-arm dataset. *)
Lemma ucb1_counts_total_witness :
  exists st g',
    ucb_steps approx_sqrt approx_log demo_env 3 3 0%Z = Ok (st, g') /\
    total (counts st) == inject_Z (K demo_env) + inject_Z (Z.of_nat 3).
Proof.
  eexists. eexists. split; [vm_compute; reflexivity|].
  eapply (@ucb1_counts_total Z _ approx_sqrt approx_log)
    with (T := 3%Z) (g := 0%Z).
  vm_compute. reflexivity.
Defined.

(** [eg_trace_append_only] between the first and the third step. *)
Lemma eg_trace_append_only_witness :
  exists st g1 st' g2,
    RandomSourceLaws Z /\
    eg_steps demo_env 3 (1 # 10) 1 0%Z = Ok (st, g1) /\
    eg_steps demo_env 3 (1 # 10) (1 + 2) 0%Z = Ok (st', g2) /\
    firstn 1 (rewards st') = firstn 1 (rewards st) /\
    firstn 1 (chosen st') = firstn 1 (chosen st).
Proof.
  eexists. eexists. eexists. eexists. split; [exact counter_source_laws|].
  split; [vm_compute; reflexivity|]. split; [vm_compute; reflexivity|].
  eapply (@eg_trace_append_only Z _ counter_source_laws)
    with (env := demo_env) (T := 3%Z) (eps := 1 # 10) (k := 2%nat) (g := 0%Z);
    vm_compute; reflexivity.
Defined.

(** [ucb1_trace_append_only] between the first and the third step. *)
Lemma ucb1_trace_append_only_witness :
  exists st g1 st' g2,
    ucb_steps approx_sqrt approx_log demo_env 3 1 0%Z = Ok (st, g1) /\
    ucb_steps approx_sqrt approx_log demo_env 3 (1 + 2) 0%Z = Ok (st', g2) /\
    firstn 1 (rewards st') = firstn 1 (rewards st) /\
    firstn 1 (chosen st') = firstn 1 (chosen st).
Proof.
  eexists. eexists. eexists. eexists.
  split; [vm_compute; reflexivity|]. split; [vm_compute; reflexivity|].
  eapply (@ucb1_trace_append_only Z _ approx_sqrt approx_log)
    with (env := demo_env) (T := 3%Z) (k := 2%nat) (g := 0%Z);
    vm_compute; reflexivity.
Defined.

(** [ucb1_first_arm] after three steps on the two-arm dataset. *)
Lemma ucb1_first_arm_witness :
  exists st g',
    (1 <= 3)%nat /\
    ucb_steps approx_sqrt approx_log demo_env 3 3 0%Z = Ok (st, g') /\
    nth 0 (chosen st) 1%Z = 0%Z /\
    (1 <= pulls_of 0 (history 3 (rewards st) (chosen st)))%nat.
Proof.
  eexists. eexists. split; [lia|]. split; [vm_compute; reflexivity|].
  eapply (@ucb1_first_arm Z _ approx_sqrt approx_log)
    with (env := demo_env) (T := 3%Z) (g := 0%Z);
    [lia | vm_compute; reflexivity].
Defined.

(** [eg_greedy_first_arm] with epsilon 0 on the two-arm dataset. *)
Lemma eg_greedy_first_arm_witness :
  exists st g',
    RandomSourceLaws Z /\ 0 <= 0 /\ (1 <= 3)%nat /\
    eg_steps demo_env 3 0 3 0%Z = Ok (st, g') /\
    nth 0 (chosen st) 1%Z = 0%Z /\
    (1 <= pulls_of 0 (history 3 (rewards st) (chosen st)))%nat.
Proof.
  eexists. eexists. split; [exact counter_source_laws|].
  split; [lra|]. split; [lia|]. split; [vm_compute; reflexivity|].
  eapply (@eg_greedy_first_arm Z _ counter_source_laws)
    with (env := demo_env) (T := 3%Z) (eps := 0) (g := 0%Z);
    [lra | lia | vm_compute; reflexivity].
Defined.

(** [thompson_pseudo_count_totals] after three steps on the two-arm
    dataset. *)
Lemma thompson_pseudo_count_totals_witness :
  exists st g',
    ts_steps demo_env 3 3 0%Z = Ok (st, g') /\
    total (alpha st) ==
      inject_Z (K demo_env) + total (firstn 3 (ts_rewards st)) /\
    total (beta st) ==
      inject_Z (K demo_env) +
      (inject_Z (Z.of_nat 3) - total (firstn 3 (ts_rewards st))).
Proof.
  eexists. eexists. split; [vm_compute; reflexivity|].
  eapply (@thompson_pseudo_count_totals Z _) with (T := 3%Z) (g := 0%Z).
  vm_compute. reflexivity.
Defined.

(** [thompson_trace_append_only] between the first and the third step. *)
Lemma thompson_trace_append_only_witness :
  exists st g1 st' g2,
    ts_steps demo_env 3 1 0%Z = Ok (st, g1) /\
    ts_steps demo_env 3 (1 + 2) 0%Z = Ok (st', g2) /\
    firstn 1 (ts_rewards st') = firstn 1 (ts_rewards st) /\
    firstn 1 (ts_chosen st') = firstn 1 (ts_chosen st).
Proof.
  eexists. eexists. eexists. eexists.
  split; [vm_compute; reflexivity|]. split; [vm_compute; reflexivity|].
  eapply (@thompson_trace_append_only Z _)
    with (env := demo_env) (T := 3%Z) (k := 2%nat) (g := 0%Z);
    vm_compute; reflexivity.
Defined.

(** [clicks_plus_regret] at step 1 of a simulation of horizon 3. *)
Lemma clicks_plus_regret_witness :
  exists res g',
    run_simulation_T approx_sqrt approx_log demo_ads demo_ctrs 3 0%Z =
      Ok (res, g') /\
    (1 < Z.to_nat 3)%nat /\
    exists optimal,
      np_max demo_ctrs = Ok optimal /\
      forall clicks regret,
        In (clicks, regret)
           [(res_eg res, reg_eg res); (res_ucb res, reg_ucb res);
            (res_ts res, reg_ts res)] ->
        nth 1 clicks 0 + nth 1 regret 0 ==
        inject_Z (Z.of_nat 1 + 1) * optimal.
Proof.
  eexists. eexists. split; [vm_compute; reflexivity|]. split; [simpl; lia|].
  eapply (@clicks_plus_regret Z _ approx_sqrt approx_log)
    with (ads0 := demo_ads) (T := 3%Z) (g := 0%Z);
    [vm_compute; reflexivity | simpl; lia].
Defined.

(** [clicks_monotone] between steps 0 and 1 of a simulation of horizon 3. *)
Lemma clicks_monotone_witness :
  exists res g',
    run_simulation_T approx_sqrt approx_log demo_ads demo_ctrs 3 0%Z =
      Ok (res, g') /\
    (1 < Z.to_nat 3)%nat /\
    forall clicks,
      In clicks [res_eg res; res_ucb res; res_ts res] ->
      nth 0 clicks 0 <= nth 1 clicks 0 <= nth 0 clicks 0 + 1.
Proof.
  eexists. eexists. split; [vm_compute; reflexivity|]. split; [simpl; lia|].
  eapply (@clicks_monotone Z _ approx_sqrt approx_log)
    with (ads0 := demo_ads) (ctrs0 := demo_ctrs) (T := 3%Z) (g := 0%Z);
    [vm_compute; reflexivity | simpl; lia].
Defined.

(** [series_bounds] at step 2 of a simulation of horizon 3. *)
Lemma series_bounds_witness :
  exists res g',
    run_simulation_T approx_sqrt approx_log demo_ads demo_ctrs 3 0%Z =
      Ok (res, g') /\
    (2 < Z.to_nat 3)%nat /\
    exists optimal,
      np_max demo_ctrs = Ok optimal /\
      forall clicks regret,
        In (clicks, regret)
           [(res_eg res, reg_eg res); (res_ucb res, reg_ucb res);
            (res_ts res, reg_ts res)] ->
        0 <= nth 2 clicks 0 <= inject_Z (Z.of_nat 2 + 1) /\
        inject_Z (Z.of_nat 2 + 1) * (optimal - 1) <= nth 2 regret 0 <=
        inject_Z (Z.of_nat 2 + 1) * optimal.
Proof.
  eexists. eexists. split; [vm_compute; reflexivity|]. split; [simpl; lia|].
  eapply (@series_bounds Z _ approx_sqrt approx_log)
    with (ads0 := demo_ads) (T := 3%Z) (g := 0%Z);
    [vm_compute; reflexivity | simpl; lia].
Defined.

(** [run_simulation_completes] on the two-arm dataset. *)
Lemma run_simulation_completes_witness :
  RandomSourceLaws Z /\
  length demo_ctrs = length demo_ads /\ demo_ads <> [] /\
  exists res g',
    run_simulation approx_sqrt approx_log demo_ads demo_ctrs 0%Z =
      Ok (res, g') /\
    Forall (fun series => Z.of_nat (length series) = 5000%Z)
      [res_eg res; res_ucb res; res_ts res;
       reg_eg res; reg_ucb res; reg_ts res] /\
    res_ads res = demo_ads /\ res_expected res = demo_ctrs.
Proof.
  split; [exact counter_source_laws|]. split; [reflexivity|].
  split; [discriminate|].
  apply (@run_simulation_completes Z _ approx_sqrt approx_log
           counter_source_laws demo_ads demo_ctrs 0%Z);
    [reflexivity | discriminate].
Defined.

(** [run_simulation_empty_dataset] with the counter source. *)
Lemma run_simulation_empty_dataset_witness :
  RandomSourceLaws Z /\
  exists e,
    (e = ValueError_randint_bounds \/ e = ValueError_argmax_empty) /\
    (exists st0,
       eg_steps (AdBandit_init [] []) 5000 (1 # 10) 0 0%Z = Ok (st0, 0%Z)) /\
    eg_steps (AdBandit_init [] []) 5000 (1 # 10) 1 0%Z = Raise e /\
    epsilon_greedy (AdBandit_init [] []) 5000 (1 # 10) 0%Z = Raise e /\
    (forall (A : Type) (k : list Q * list Z -> M Z A),
        bind (epsilon_greedy (AdBandit_init [] []) 5000 (1 # 10)) k 0%Z =
        Raise e) /\
    run_simulation approx_sqrt approx_log [] [] 0%Z = Raise e.
Proof.
  split; [exact counter_source_laws|].
  apply (@run_simulation_empty_dataset Z _ approx_sqrt approx_log
           counter_source_laws [] 0%Z).
Defined.

(** [best_ad_first_optimum] after a simulation of horizon 3 on the two-arm
    dataset, without rounding. *)
Lemma best_ad_first_optimum_witness :
  exists res g',
    run_simulation_T approx_sqrt approx_log demo_ads demo_ctrs 3 0%Z =
      Ok (res, g') /\
    length demo_ads = length demo_ctrs /\
    exists i label optimal,
      show_results_best (fun x => x) res =
        Ok (Z.of_nat i, label, optimal) /\
      np_max demo_ctrs = Ok optimal /\
      nth_error demo_ads i = Some label /\
      nth i demo_ctrs 0 = optimal /\
      (forall j, (j < i)%nat -> nth j demo_ctrs 0 < optimal) /\
      (forall j, (j < length demo_ctrs)%nat -> nth j demo_ctrs 0 <= optimal).
Proof.
  eexists. eexists. split; [vm_compute; reflexivity|]. split; [reflexivity|].
  eapply (@best_ad_first_optimum Z _ approx_sqrt approx_log (fun x => x))
    with (T := 3%Z) (g := 0%Z);
    [vm_compute; reflexivity | reflexivity].
Defined.

(** [pull_saturates] on an arm of probability 3/2. *)
Lemma pull_saturates_witness :
  RandomSourceLaws Z /\
  (0 <= 0 < Z.of_nat (length [3 # 2]))%Z /\
  1 <= nth (Z.to_nat 0) [3 # 2] 0 /\
  pull (AdBandit_init ["ad A"%string] [3 # 2]) 0 7%Z = Ok (1%Z, 8%Z).
Proof.
  split; [exact counter_source_laws|]. split; [simpl; lia|].
  split; [simpl; lra|].
  apply (proj2 (@pull_saturates Z _ counter_source_laws
                  (AdBandit_init ["ad A"%string] [3 # 2]) 0 7%Z
                  ltac:(simpl; lia))).
  simpl. lra.
Defined.

(* ================================================================== *)
(** * Runs where float64 rounding shows *)

(** C3 fails as stated in the program's arithmetic.  On one arm of
    probability 0.1, [epsilon_greedy] with epsilon 0.1 and horizon 6 observes
    the rewards 0, 0, 0, 1, 0, 0; in float64 the cumulative regret at step 6
    is -0.4 while 6 * 0.1 - (cumulative reward) is -0.3999999999999999. *)
Lemma regret_identity_rounded :
  exists rs cs g',
    epsilon_greedy (AdBandit_init ["ad A"%string] [1 # 10]) 6 (1 # 10) 0%Z =
      Ok ((rs, cs), g') /\
    rs = [0; 0; 0; 1; 0; 0] /\
    let optimal := f64_of_Q (1 # 10) in
    let reward := map f64_of_Q rs in
    let at_T (series : list f64) := nth 5 series (f64_of_Z 0) in
    PrimFloat.eqb
      (at_T (np_cumsum_f64 (np_rsub_f64 optimal reward)))
      (PrimFloat.sub (PrimFloat.mul (f64_of_Z 6) optimal)
                     (at_T (np_cumsum_f64 reward))) = false /\
    at_T (np_cumsum_f64 (np_rsub_f64 optimal reward)) =
      PrimFloat.opp (f64_of_Q (4 # 10)).
Proof.
  eexists. eexists. eexists. split; [vm_compute; reflexivity|].
  split; [reflexivity|]. split; vm_compute; reflexivity.
Qed.

(** C8 fails as stated in the program's arithmetic.  On one arm of
    probability 0.1, [ucb1] with horizon 2 pulls arm 0 twice for the rewards
    1 and 0; in float64 the value estimate is then 0.33333333333333337, while
    (sum of rewards) / (pulls + 1) = 1 / 3 is 0.3333333333333333. *)
Lemma ucb1_value_rounded :
  exists st g' vals,
    ucb_steps approx_sqrt approx_log
      (AdBandit_init ["ad A"%string] [1 # 10]) 2 2 0%Z = Ok (st, g') /\
    history 2 (rewards st) (chosen st) = [(1, 0%Z); (0, 0%Z)] /\
    ucb1_values_f64 1 [(1, 0); (0, 0)]%Z = Ok vals /\
    PrimFloat.eqb (nth 0 vals (f64_of_Z 0))
                  (PrimFloat.div (f64_of_Z 1) (f64_of_Z (2 + 1))) = false /\
    PrimFloat.ltb (PrimFloat.div (f64_of_Z 1) (f64_of_Z (2 + 1)))
                  (nth 0 vals (f64_of_Z 0)) = true.
Proof.
  eexists. eexists. eexists. split; [vm_compute; reflexivity|].
  split; [reflexivity|]. split; [vm_compute; reflexivity|].
  split; vm_compute; reflexivity.
Qed.

(** [regret_step_exact] between steps 0 and 1 of a simulation of horizon 3
    on the two-arm dataset. *)
Lemma regret_step_exact_witness :
  exists res g',
    run_simulation_T approx_sqrt approx_log demo_ads demo_ctrs 3 0%Z =
      Ok (res, g') /\
    (1 < Z.to_nat 3)%nat /\
    exists eg g1 ucb g2 ts g3 optimal,
      epsilon_greedy demo_env 3 (1 # 10) 0%Z = Ok (eg, g1) /\
      ucb1 approx_sqrt approx_log demo_env 3 g1 = Ok (ucb, g2) /\
      thompson_sampling demo_env 3 g2 = Ok (ts, g3) /\
      np_max demo_ctrs = Ok optimal /\
      forall reward regret,
        In (reward, regret)
           [(fst eg, reg_eg res); (fst ucb, reg_ucb res);
            (fst ts, reg_ts res)] ->
        nth 1 regret 0 - nth 0 regret 0 == optimal - nth 1 reward 0 /\
        (nth 0 regret 0 <= nth 1 regret 0 <-> nth 1 reward 0 <= optimal).
Proof.
  eexists. eexists. split; [vm_compute; reflexivity|]. split; [simpl; lia|].
  eapply (@regret_step_exact Z _ approx_sqrt approx_log)
    with (ads0 := demo_ads) (ctrs0 := demo_ctrs) (T := 3%Z) (g := 0%Z);
    [vm_compute; reflexivity | simpl; lia].
Defined.
